(** * geminiutil.gmos.basic.mask_cut: slit geometry, slit cutting, mask edges

    A shallow embedding of [find_mask_edges], [cut_slits] and
    [prepare_mdf_table] from [geminiutil/gmos/basic/mask_cut.py].

    Conventions of the embedding.
    - Real-valued samples are exact rationals ([Q]); IEEE infinities, NaN and
      rounding error are outside the model.  Integer pixel coordinates are [Z].
    - Physical quantities carry no unit tag: a quantity is its value in the
      unit the source converts it to (mm, arcsec, pix).
    - Python exceptions are the left summand of [result].
    - Objects that the source shares and mutates (tables, images) live in a
      [store] and are passed by location. *)

From Stdlib Require Import QArith Qround Qabs.
From stdpp Require Import gmap strings list fin_maps pretty sorting.

Local Open Scope Z_scope.

(** ** Exceptions and the result monad *)

(** [ValueError msg] is a [ValueError] that the source raises itself.
    [ShapeError] is the [ValueError] of numpy or of the table for operands or
    columns whose shapes do not agree (its message depends on the shapes).
    [KeyError] is the error of the table for a column it does not have.
    [Dangling] is a location that is not in the store; no Python value
    denotes it. *)
Inductive exn : Type :=
  | ValueError (msg : string)
  | ShapeError
  | KeyError (key : string)
  | TypeError
  | IndexError
  | ZeroDivisionError
  | Dangling.

Definition result (A : Type) : Type := exn + A.

Definition ok {A} (a : A) : result A := inr a.
Definition raise {A} (e : exn) : result A := inl e.

#[global] Instance result_ret : MRet result := λ A a, inr a.
#[global] Instance result_bind : MBind result := λ A B k m,
  match m with
  | inl e => inl e
  | inr a => k a
  end.

Fixpoint rmapM {A B} (f : A → result B) (l : list A) : result (list B) :=
  match l with
  | [] => ok []
  | x :: l' => y ← f x; ys ← rmapM f l'; ok (y :: ys)
  end.

(** ** Python and numpy primitives *)

Module Py.

(** [slice(lo, hi).indices(n)]: a negative bound counts from the end, and
    every bound is clipped to [0, n]. *)
Definition norm_index (n : nat) (i : Z) : nat :=
  if i <? 0 then Z.to_nat (Z.max (i + Z.of_nat n) 0)
  else Z.to_nat (Z.min i (Z.of_nat n)).

Definition in_slice (n : nat) (lo hi : Z) (i : nat) : bool :=
  (norm_index n lo <=? i)%nat && (i <? norm_index n hi)%nat && (i <? n)%nat.

Definition slice_len (n : nat) (lo hi : Z) : nat :=
  (norm_index n hi - norm_index n lo)%nat.

Definition slice_list {A} (lo hi : Z) (l : list A) : list A :=
  take (slice_len (length l) lo hi) (drop (norm_index (length l) lo) l).

(** A slice object with optional bounds, as in [slice(None)]. *)
Record pyslice := { start : option Z; stop : option Z }.

Definition slice_None : pyslice := {| start := None; stop := None |}.

Definition apply_slice {A} (s : pyslice) (l : list A) : list A :=
  slice_list (default 0 (start s)) (default (Z.of_nat (length l)) (stop s)) l.

(** [itertools.groupby]: maximal runs of consecutive elements with equal
    key, in order, each paired with its key. *)
Fixpoint groupby {A} (key : A → bool) (l : list A) : list (bool * list A) :=
  match l with
  | [] => []
  | x :: l' =>
      match groupby key l' with
      | (k, g) :: rest =>
          if bool_decide (key x = k) then (k, x :: g) :: rest
          else (key x, [x]) :: (k, g) :: rest
      | [] => [(key x, [x])]
      end
  end.

(** ['%s_%d' % i] for the labels of the cut-outs. *)
Definition label (prefix : string) (i : nat) : string :=
  prefix +:+ "_" +:+ pretty i.

End Py.

Module Np.

Definition Qsum (l : list Q) : Q := foldr Qplus 0%Q l.

Definition of_index (i : nat) : Q := inject_Z (Z.of_nat i).

(** [a[idx]] with a list of indices: out of range raises. *)
Definition fancy_index (a : list Q) (idx : list nat) : result (list Q) :=
  rmapM (λ i, match a !! i with Some v => ok v | None => raise IndexError end) idx.

(** [np.average(a, weights=w)]: refuses weights that sum to zero. *)
Definition average (a w : list Q) : result Q :=
  let scl := Qsum w in
  if Qeq_bool scl 0 then raise ZeroDivisionError
  else ok (Qsum (zip_with Qmult a w) / scl)%Q.

(** [np.diff(a, axis=0)] on a list of rows. *)
Definition diff_rows (a : list (list Q)) : list (list Q) :=
  zip_with (zip_with Qminus) (drop 1 a) a.

Fixpoint insert_sorted (x : Q) (l : list Q) : list Q :=
  match l with
  | [] => [x]
  | y :: l' => if Qle_bool x y then x :: l else y :: insert_sorted x l'
  end.

Definition sort (l : list Q) : list Q := foldr insert_sorted [] l.

(** [np.median] of a non-empty row: the middle of the sorted row, or the
    mean of the two middle samples.  (numpy yields NaN on an empty row; the
    model has no NaN and yields 0 there.) *)
Definition median (l : list Q) : Q :=
  let s := sort l in
  let n := length s in
  if Nat.even n
  then ((nth (n / 2 - 1) s 0 + nth (n / 2) s 0) / 2)%Q
  else nth (n / 2) s 0%Q.

(** [np.round]: round half to even. *)
Definition round (q : Q) : Z :=
  let f := Qfloor q in
  let r := (q - inject_Z f)%Q in
  match (r ?= 1 # 2)%Q with
  | Lt => f
  | Gt => f + 1
  | Eq => if Z.even f then f else f + 1
  end.

(** [.astype(int)]: truncation toward zero. *)
Definition trunc (q : Q) : Z := Z.quot (Qnum q) (Z.pos (Qden q)).

End Np.

(** ** Library interface: scipy.ndimage and astropy.stats

    [ndimage.gaussian_filter] and [stats.sigma_clip] belong to external
    libraries.  The development is parametric in them; all it relies on is
    that both keep the length of the profile.  [sigma_clip] stands for the mask
    of the masked array that [stats.sigma_clip(..., maout=True)] returns:
    [true] marks a clipped sample, and the data of that array is its input. *)

Class SignalLib := {
  gaussian_filter : list Q → Q → list Q;
  sigma_clip : list Q → Q → nat → list bool;
  gaussian_filter_length p sigma :
    length (gaussian_filter p sigma) = length p;
  sigma_clip_length p sig iters :
    length (sigma_clip p sig iters) = length p
}.

(** ** find_mask_edges *)

Module EdgeFinder.

Record masked_array := MaskedArray { ma_data : list Q; ma_mask : list bool }.

(** [peaks.mask[x]] for [x] in [np.arange(len(peaks))]; the default is never
    reached on such an index. *)
Definition mask_at (m : list bool) (x : nat) : bool := default true (m !! x).

(** [[list(group) for key, group in itertools.groupby(pixel_index,
    lambda x: peaks.mask[x]) if key==False]] *)
Definition edge_groups (m : masked_array) : list (list nat) :=
  let pixel_index := seq 0 (length (ma_data m)) in
  snd <$> filter (λ kg, kg.1 = false) (Py.groupby (mask_at (ma_mask m)) pixel_index).

(** [np.average(edge_group, weights=gradient_profile[edge_group])] *)
Definition centroid (gradient_profile : list Q) (edge_group : list nat) : result Q :=
  w ← Np.fancy_index gradient_profile edge_group;
  Np.average (Np.of_index <$> edge_group) w.

(** The loop that skips groups of length one and appends a centroid for
    every other group. *)
Fixpoint edges_of_groups (gradient_profile : list Q) (groups : list (list nat))
  : result (list Q) :=
  match groups with
  | [] => ok []
  | edge_group :: rest =>
      if bool_decide (length edge_group = 1%nat)
      then edges_of_groups gradient_profile rest
      else c ← centroid gradient_profile edge_group;
           cs ← edges_of_groups gradient_profile rest;
           ok (c :: cs)
  end.

Record edges := Edges {
  peaks : masked_array;
  troughs : masked_array;
  lower_edges : list Q;
  upper_edges : list Q
}.

Section with_lib.
Context `{SignalLib}.

(** [ndimage.gaussian_filter(np.median(np.diff(flat_image, axis=0)
    [:, use_image_columns], axis=1), sigma=gauss_filter_sigma)] *)
Definition gradient_profile_of (flat_image : list (list Q))
    (use_image_columns : Py.pyslice) (gauss_filter_sigma : Q) : list Q :=
  let gradient_image := Np.diff_rows flat_image in
  gaussian_filter
    (Np.median <$> (Py.apply_slice use_image_columns <$> gradient_image))
    gauss_filter_sigma.

Definition find_mask_edges (flat_image : list (list Q))
    (use_image_columns : Py.pyslice)
    (gauss_filter_sigma sigma_clip_sigma : Q) (sigma_clip_iter : nat)
  : result edges :=
  let gradient_profile :=
    gradient_profile_of flat_image use_image_columns gauss_filter_sigma in
  let clipped_mask := sigma_clip gradient_profile sigma_clip_sigma sigma_clip_iter in
  let clipped_data := gradient_profile in
  let peak_mask := zip_with andb clipped_mask (Qle_bool 0 <$> clipped_data) in
  let trough_mask :=
    zip_with andb clipped_mask ((λ d, negb (Qle_bool 0 d)) <$> clipped_data) in
  let peaks := MaskedArray clipped_data (negb <$> peak_mask) in
  let troughs := MaskedArray clipped_data (negb <$> trough_mask) in
  lower_edges ← edges_of_groups gradient_profile (edge_groups peaks);
  upper_edges ← edges_of_groups gradient_profile (edge_groups troughs);
  ok (Edges peaks troughs lower_edges upper_edges).

End with_lib.

End EdgeFinder.

(** ** A concrete library instance for running the model

    A smoothing filter with the rational kernel (1/4, 1/2, 1/4) and the
    boundary handling of [mode='reflect'], and iterated clipping around the
    median at [sig] standard deviations. *)

Module RefLib.

Definition smooth3 (p : list Q) : list Q :=
  imap (λ i x,
          let l := nth (i - 1) p x in
          let r := nth (i + 1) p x in
          ((1 # 4) * l + (1 # 2) * x + (1 # 4) * r)%Q) p.

Definition select (keep : list bool) (data : list Q) : list Q :=
  snd <$> filter (λ kd, kd.1 = true) (zip keep data).

Definition mean (l : list Q) : Q := (Np.Qsum l / inject_Z (Z.of_nat (length l)))%Q.

Definition variance (l : list Q) : Q :=
  let m := mean l in mean ((λ x, (x - m) * (x - m))%Q <$> l).

Definition clip_step (sig : Q) (data : list Q) (keep : list bool) : list bool :=
  let kept := select keep data in
  match kept with
  | [] => (λ _, false) <$> data
  | _ =>
      let c := Np.median kept in
      let v := variance kept in
      (λ d, Qle_bool ((d - c) * (d - c)) (v * (sig * sig))) <$> data
  end.

Definition clip_mask (data : list Q) (sig : Q) (iters : nat) : list bool :=
  negb <$> Nat.iter iters (clip_step sig data) ((λ _, true) <$> data).

#[export] Instance lib : SignalLib := {|
  gaussian_filter p _ := smooth3 p;
  sigma_clip := clip_mask;
  gaussian_filter_length p _ := length_imap _ p;
  sigma_clip_length data sig iters :=
    ltac:(unfold clip_mask, clip_step; rewrite length_fmap;
          destruct iters as [|n]; simpl;
          [apply length_fmap | case_match; apply length_fmap])
|}.

End RefLib.

(** ** Two-dimensional arrays *)

Module NdArray.

(** A 2-D array: its rows, and the row length kept apart so that an array
    with no rows still has a width. *)
Record ndarray := Array { ncols : nat; rows : list (list Q) }.

Definition nrows (a : ndarray) : nat := length (rows a).
Definition shape (a : ndarray) : nat * nat := (nrows a, ncols a).

Definition wf (a : ndarray) : Prop := Forall (λ r, length r = ncols a) (rows a).

(** [a[r, c]] for indices in range. *)
Definition get (a : ndarray) (r c : nat) : option Q :=
  row ← rows a !! r; row !! c.

(** [a[slice(y1, y2), slice(x1, x2)]] *)
Definition getslice (a : ndarray) (y1 y2 x1 x2 : Z) : ndarray :=
  Array (Py.slice_len (ncols a) x1 x2)
        (Py.slice_list x1 x2 <$> Py.slice_list y1 y2 (rows a)).

(** [a[slice(y1, y2), slice(x1, x2)] = v] *)
Definition setslice (a : ndarray) (y1 y2 x1 x2 : Z) (v : Q) : ndarray :=
  Array (ncols a)
        (imap (λ r row,
                 if Py.in_slice (nrows a) y1 y2 r
                 then imap (λ c x, if Py.in_slice (length row) x1 x2 c then v else x) row
                 else row)
              (rows a)).

End NdArray.

(** ** Tables and the store *)

Module Tbl.

Inductive cell := CInt (z : Z) | CReal (q : Q).
Inductive column := IntCol (v : list Z) | RealCol (v : list Q).

Definition col_length (c : column) : nat :=
  match c with IntCol v => length v | RealCol v => length v end.

Definition col_cells (c : column) : list cell :=
  match c with IntCol v => CInt <$> v | RealCol v => CReal <$> v end.

(** The numeric data of a column, as [column.data] in float arithmetic. *)
Definition col_values (c : column) : list Q :=
  match c with IntCol v => inject_Z <$> v | RealCol v => v end.

(** An [astropy.table.Table]: named columns, in order. *)
Definition Table := list (string * column).

Definition colnames (t : Table) : list string := t.*1.

Definition wf (t : Table) : Prop :=
  ∃ n, Forall (λ nc, col_length nc.2 = n) t.

Fixpoint get_column (name : string) (t : Table) : option column :=
  match t with
  | [] => None
  | (n, c) :: t' => if bool_decide (n = name) then Some c else get_column name t'
  end.

(** [t[name]], and each name of [t[name1, name2, ...]]: a missing column is
    an error of the table. *)
Definition getitem (t : Table) (name : string) : result column :=
  match get_column name t with
  | Some c => ok c
  | None => raise (KeyError name)
  end.

Fixpoint replace_column (name : string) (c : column) (t : Table) : Table :=
  match t with
  | [] => [(name, c)]
  | (n, c') :: t' =>
      if bool_decide (n = name) then (n, c) :: t'
      else (n, c') :: replace_column name c t'
  end.

(** [t[name] = values]: replaces the column of that name or appends a new
    one; the length has to agree with the columns already there. *)
Definition setitem (t : Table) (name : string) (c : column) : result Table :=
  match t with
  | (_, c0) :: _ =>
      if bool_decide (col_length c = col_length c0)
      then ok (replace_column name c t)
      else raise ShapeError
  | [] => ok [(name, c)]
  end.

End Tbl.

Definition loc := nat.

Record store := Store {
  arrays : gmap nat NdArray.ndarray;
  tables : gmap nat Tbl.Table
}.

Definition read_array (h : store) (l : loc) : result NdArray.ndarray :=
  match arrays h !! l with Some a => ok a | None => raise Dangling end.

Definition read_table (h : store) (l : loc) : result Tbl.Table :=
  match tables h !! l with Some t => ok t | None => raise Dangling end.

Definition write_array (h : store) (l : loc) (a : NdArray.ndarray) : store :=
  Store (<[l := a]> (arrays h)) (tables h).

Definition write_table (h : store) (l : loc) (t : Tbl.Table) : store :=
  Store (arrays h) (<[l := t]> (tables h)).

(** A new object gets a location that is not in use. *)
Definition alloc_array (h : store) (a : NdArray.ndarray) : loc * store :=
  let l := fresh (dom (arrays h)) in (l, write_array h l a).

Definition alloc_table (h : store) (t : Tbl.Table) : loc * store :=
  let l := fresh (dom (tables h)) in (l, write_table h l t).

(** ** cut_slits *)

Module Cutter.
Import NdArray Tbl.

(** [fits.ImageHDU(data, name=...)].  [hdu_view_of] records whether the
    array is a view on a caller's plane (the uncertainty and mask slices) or
    a fresh copy (the data slice). *)
Record ImageHDU := HDU {
  hdu_name : string;
  hdu_data : ndarray;
  hdu_view_of : option loc
}.

(** A slice bound has to be an integer. *)
Definition as_int (c : cell) : result Z :=
  match c with CInt z => ok z | CReal _ => raise TypeError end.

Definition row4 : Type := cell * cell * cell * cell.

(** The rows of [mdf_table['SECX1', 'SECX2', 'SECY1', 'SECY2']]. *)
Definition sec_rows (t : Table) : result (list row4) :=
  cx1 ← getitem t "SECX1";
  cx2 ← getitem t "SECX2";
  cy1 ← getitem t "SECY1";
  cy2 ← getitem t "SECY2";
  ok (zip (zip (zip (col_cells cx1) (col_cells cx2)) (col_cells cy1)) (col_cells cy2)).

Definition sentinel : Q := (- 1000)%Q.

(** One pass of the loop body for the row with index [i]. *)
Definition cut_one (h : store) (data : loc) (uncertainty mask cut_image : option loc)
    (i : nat) (row : row4) (final_hdu_list : list ImageHDU)
  : result (store * list ImageHDU) :=
  let '(cx1, cx2, cy1, cy2) := row in
  sec_x1 ← as_int cx1;
  sec_x2 ← as_int cx2;
  sec_y1 ← as_int cy1;
  sec_y2 ← as_int cy2;
  d ← read_array h data;
  let data_slice := getslice d sec_y1 sec_y2 sec_x1 sec_x2 in
  h1 ← match cut_image with
       | Some l =>
           c ← read_array h l;
           ok (write_array h l (setslice c sec_y1 sec_y2 sec_x1 sec_x2 sentinel))
       | None => ok h
       end;
  let hdus1 := final_hdu_list ++ [HDU (Py.label "DATA" i) data_slice None] in
  hdus2 ← match uncertainty with
          | Some u =>
              ua ← read_array h1 u;
              ok (hdus1 ++ [HDU (Py.label "UNCERTAINTY" i)
                                (getslice ua sec_y1 sec_y2 sec_x1 sec_x2) (Some u)])
          | None => ok hdus1
          end;
  hdus3 ← match mask with
          | Some m =>
              ma ← read_array h1 m;
              ok (hdus2 ++ [HDU (Py.label "MASK" i)
                                (getslice ma sec_y1 sec_y2 sec_x1 sec_x2) (Some m)])
          | None => ok hdus2
          end;
  ok (h1, hdus3).

(** [for i, (...) in enumerate(...)] *)
Fixpoint cut_loop (h : store) (data : loc) (uncertainty mask cut_image : option loc)
    (i : nat) (rows : list row4) (final_hdu_list : list ImageHDU)
  : result (store * list ImageHDU) :=
  match rows with
  | [] => ok (h, final_hdu_list)
  | row :: rest =>
      '(h1, hdus) ← cut_one h data uncertainty mask cut_image i row final_hdu_list;
      cut_loop h1 data uncertainty mask cut_image (S i) rest hdus
  end.

Definition not_prepared : exn := ValueError "The supplied table has not been prepared".

Definition cut_slits (h : store) (data mdf_table : loc) (uncertainty mask : option loc)
    (return_cut_image : bool)
  : result (store * (option loc * list ImageHDU)) :=
  t ← read_table h mdf_table;
  if bool_decide ("SECX1" ∉ colnames t) then raise not_prepared
  else
    '(h0, cut_image) ←
       (if return_cut_image
        then d ← read_array h data;
             let '(l, h') := alloc_array h d in ok (h', Some l)
        else ok (h, None));
    rows ← sec_rows t;
    '(h1, final_hdu_list) ← cut_loop h0 data uncertainty mask cut_image 0 rows [];
    ok (h1, (cut_image, final_hdu_list)).

End Cutter.

(** ** prepare_mdf_table *)

Module Mdf.
Import Tbl.

(** The arguments after the table.  [naxis1], [naxis2] are pixel counts;
    [x_scale], [y_scale] are in arcsec/pix, [spectral_pixel_scale] in
    wavelength units per pixel, the wavelengths and [wavelength_offset] in
    that wavelength unit, [arcsecpermm] in arcsec/mm, [y_offset] in pixels
    (the source reads its [.value]). *)
Record params := Params {
  naxis1 : Z;
  naxis2 : Z;
  x_scale : Q;
  y_scale : Q;
  anamorphic_factor : Q;
  wavelength_offset : Q;
  spectral_pixel_scale : Q;
  wavelength_start : Q;
  wavelength_central : Q;
  wavelength_end : Q;
  y_distortion_coefficients : Q * Q * Q;
  arcsecpermm : Q;
  y_offset : Q
}.

(** The default of [arcsecpermm]. *)
Definition arcsecpermm_default : Q := 1611444 # 1000000.

(** Broadcasting of a 1-D operand to shape [(k,)]: an operand of that length
    or of length one, and no other. *)
Definition broadcast_to (k : nat) (v : list Z) : result (list Z) :=
  if bool_decide (length v = k) then ok v
  else if bool_decide (length v = 1%nat) then ok (replicate k (v !!! 0%nat))
  else raise ShapeError.

Fixpoint scatter_add (a : list Q) (m : list bool) (v : list Z) : list Q :=
  match a, m with
  | x :: a', true :: m' =>
      match v with
      | z :: v' => (x + inject_Z z)%Q :: scatter_add a' m' v'
      | [] => x :: scatter_add a' m' []
      end
  | x :: a', false :: m' => x :: scatter_add a' m' v
  | _, _ => a
  end.

(** [a[m] += v]: the selected samples, [k] of them, are added to [v]
    broadcast to shape [(k,)] and stored back. *)
Definition masked_iadd (a : list Q) (m : list bool) (v : list Z) : result (list Q) :=
  let k := length (filter (λ b, b = true) m) in
  v' ← broadcast_to k v;
  ok (scatter_add a m v').

(** [a[a < 0] = 0] and [a[a > hi] = hi] *)
Definition clip_below_zero (a : list Z) : list Z :=
  (λ v, if v <? 0 then 0 else v) <$> a.
Definition clip_above (hi : Z) (a : list Z) : list Z :=
  (λ v, if hi <? v then hi else v) <$> a.

(** The box of every slit before the frame check, and the reference pixel:
    everything up to the line that logs 'pre check'. *)
Record boxes := Boxes {
  bx1 : list Z;
  bx2 : list Z;
  by1 : list Z;
  by2 : list Z;
  wavelength_central_pixel : Q
}.

Definition unclipped_boxes (p : params)
    (slitpos_mx slitpos_my slitsize_mx slitsize_my : list Q) : boxes :=
  let slit_length := (λ s, s * arcsecpermm p)%Q <$> slitsize_my in
  let spectrum_width :=
    (λ l, Np.round ((105 # 100) * (l / y_scale p))%Q) <$> slit_length in
  let spectrum_length :=
    Np.round ((wavelength_end p - wavelength_start p) / spectral_pixel_scale p)%Q in
  let wavelength_central_pixel :=
    (inject_Z spectrum_length
     - (wavelength_central p - wavelength_start p) / spectral_pixel_scale p)%Q in
  let '(c0, c1, c2) := y_distortion_coefficients p in
  let corrected_ypos :=
    (λ my, c0 * my + c1 * (my * my) + c2 * (my * my * my))%Q <$> slitpos_my in
  let x_center := (inject_Z (naxis1 p) / 2)%Q in
  let y_center := (inject_Z (naxis2 p) / 2)%Q in
  let slit_pos_y :=
    (λ cy, cy * arcsecpermm p / y_scale p + y_center)%Q <$> corrected_ypos in
  let slit_pos_x :=
    (λ mx, mx * arcsecpermm p / x_scale p + x_center)%Q <$> slitpos_mx in
  let y := (λ sy, sy / inject_Z (naxis2 p) - (1 # 2))%Q <$> slit_pos_y in
  let distortion_x :=
    (λ y, inject_Z (naxis1 p) * ((14 # 10000) * y - (167 # 10000) * (y * y)))%Q <$> y in
  let x1 :=
    zip_with
      (λ sx dx,
         Np.trunc (inject_Z (Np.round (x_center - (x_center - sx) / anamorphic_factor p
                                       - wavelength_central_pixel))
                   + wavelength_offset p / spectral_pixel_scale p + dx)%Q)
      slit_pos_x distortion_x in
  let x2 := (λ v, v + spectrum_length) <$> x1 in
  let y1 :=
    zip_with (λ sy w, Np.round (sy - inject_Z w / 2 + y_offset p)%Q)
             slit_pos_y spectrum_width in
  let y2 := zip_with Z.add y1 spectrum_width in
  Boxes x1 x2 y1 y2 wavelength_central_pixel.

Definition prepare_mdf_table (h : store) (mdf_table : loc) (p : params)
  : result (store * loc) :=
  src ← read_table h mdf_table;
  (* mdf_table = table.Table(mdf_table): a new table holding a copy *)
  let '(mdf_table, h) := alloc_table h src in
  t ← read_table h mdf_table;
  slitpos_mx ← getitem t "slitpos_mx";
  slitpos_my ← getitem t "slitpos_my";
  slitsize_mx ← getitem t "slitsize_mx";
  slitsize_my ← getitem t "slitsize_my";
  let b := unclipped_boxes p (col_values slitpos_mx) (col_values slitpos_my)
                           (col_values slitsize_mx) (col_values slitsize_my) in
  let x1 := bx1 b in
  let x2 := bx2 b in
  let y1 := by1 b in
  let y2 := by2 b in
  let refpix := (λ _, 1 * wavelength_central_pixel b)%Q <$> x1 in
  refpix ← masked_iadd refpix ((λ v, v <? 0) <$> x1) x1;
  let x1 := clip_below_zero x1 in
  let x2 := clip_above (naxis1 p) x2 in
  let y1 := clip_below_zero y1 in
  let y2 := clip_above (naxis2 p) y2 in
  t ← setitem t "SECX1" (IntCol x1);
  t ← setitem t "SECX2" (IntCol x2);
  t ← setitem t "SECY1" (IntCol y1);
  t ← setitem t "SECY2" (IntCol y2);
  t ← setitem t "REFPIX1" (RealCol refpix);
  ok (write_table h mdf_table t, mdf_table).

End Mdf.

(** ** Vocabulary of the statements *)

Module Spec.
Import EdgeFinder NdArray Tbl Cutter.

(** Row [i] is an edge candidate of a masked profile when it is not masked. *)
Definition candidate (m : masked_array) (i : nat) : bool :=
  negb (mask_at (ma_mask m) i).

(** The rows [s, s + len) form a maximal run of candidates among the rows
    [0, n). *)
Definition is_maximal_run (cand : nat → bool) (n s len : nat) : Prop :=
  (1 ≤ len)%nat ∧ (s + len ≤ n)%nat ∧
  (∀ i, (s ≤ i < s + len)%nat → cand i = true) ∧
  (s = 0%nat ∨ cand (s - 1)%nat = false) ∧
  ((s + len)%nat = n ∨ cand (s + len)%nat = false).

Definition weights_at (g : list Q) (run : list nat) : list Q :=
  (λ i, nth i g 0%Q) <$> run.

(** The average of the row indices of [run] weighted by the magnitude of
    the profile [g] at those rows. *)
Definition magnitude_centroid (g : list Q) (run : list nat) : Q :=
  let w := Qabs <$> weights_at g run in
  (Np.Qsum (zip_with Qmult (Np.of_index <$> run) w) / Np.Qsum w)%Q.

(** The gradient profile before smoothing. *)
Definition unsmoothed_profile_of (flat_image : list (list Q))
    (use_image_columns : Py.pyslice) : list Q :=
  Np.median <$> (Py.apply_slice use_image_columns <$> Np.diff_rows flat_image).


(** A bounding box (x1, x2, y1, y2) and the pixels [x1, x2) x [y1, y2). *)
Definition box : Type := Z * Z * Z * Z.

Definition in_box (b : box) (r c : nat) : bool :=
  let '(x1, x2, y1, y2) := b in
  (y1 <=? Z.of_nat r) && (Z.of_nat r <? y2) && (x1 <=? Z.of_nat c) && (Z.of_nat c <? x2).

Definition in_union (bs : list box) (r c : nat) : bool :=
  existsb (λ b, in_box b r c) bs.

Definition box_nonneg (b : box) : Prop :=
  let '(x1, x2, y1, y2) := b in 0 ≤ x1 ∧ 0 ≤ x2 ∧ 0 ≤ y1 ∧ 0 ≤ y2.

Definition boxes_of (x1 x2 y1 y2 : list Z) : list box :=
  zip (zip (zip x1 x2) y1) y2.

(** The table carries the four derived geometry columns, as integer columns
    of one length. *)
Definition prepared (t : Table) (x1 x2 y1 y2 : list Z) : Prop :=
  get_column "SECX1" t = Some (IntCol x1) ∧
  get_column "SECX2" t = Some (IntCol x2) ∧
  get_column "SECY1" t = Some (IntCol y1) ∧
  get_column "SECY2" t = Some (IntCol y2) ∧
  length x2 = length x1 ∧ length y1 = length x1 ∧ length y2 = length x1.

(** An optional plane is either absent or an array of the store. *)
Definition plane_ok (h : store) (p : option loc) : Prop :=
  match p with Some l => is_Some (arrays h !! l) | None => True end.

Definition supplied {A} (p : option A) : nat :=
  match p with Some _ => 1%nat | None => 0%nat end.



(** A supplied plane together with its array in the store. *)
Definition plane (h : store) (p : option loc) : option (loc * ndarray) :=
  l ← p; a ← arrays h !! l; Some (l, a).

Definition cells_of (b : box) : row4 :=
  let '(x1, x2, y1, y2) := b in (CInt x1, CInt x2, CInt y1, CInt y2).

(** The sub-images of the row with index [i] and box [b]. *)
Definition row_hdus (d : ndarray) (ua ma : option (loc * ndarray)) (i : nat) (b : box)
  : list ImageHDU :=
  let '(x1, x2, y1, y2) := b in
  [HDU (Py.label "DATA" i) (getslice d y1 y2 x1 x2) None]
  ++ match ua with
     | Some (u, a) => [HDU (Py.label "UNCERTAINTY" i) (getslice a y1 y2 x1 x2) (Some u)]
     | None => []
     end
  ++ match ma with
     | Some (m, a) => [HDU (Py.label "MASK" i) (getslice a y1 y2 x1 x2) (Some m)]
     | None => []
     end.

(** The bundle for the boxes [bs], the first of them having index [i]. *)
Fixpoint bundle_from (d : ndarray) (ua ma : option (loc * ndarray)) (i : nat)
    (bs : list box) : list ImageHDU :=
  match bs with
  | [] => []
  | b :: bs' => row_hdus d ua ma i b ++ bundle_from d ua ma (S i) bs'
  end.

(** The image with the sentinel stamped on every box. *)
Definition stamp (c : ndarray) (b : box) : ndarray :=
  let '(x1, x2, y1, y2) := b in setslice c y1 y2 x1 x2 sentinel.

Definition stamp_all (c : ndarray) (bs : list box) : ndarray := foldl stamp c bs.

Definition derived_columns : list string :=
  ["SECX1"; "SECX2"; "SECY1"; "SECY2"; "REFPIX1"].

(** [gs] cuts the rows [a, b) into consecutive non-empty runs of constant
    key, neighbouring runs having different keys. *)
Fixpoint runs_from (key : nat → bool) (a : nat) (gs : list (bool * list nat)) (b : nat)
  : Prop :=
  match gs with
  | [] => a = b
  | (k, g) :: rest =>
      ∃ len, (1 ≤ len)%nat ∧ g = seq a len ∧
             (∀ i, (a ≤ i < a + len)%nat → key i = k) ∧
             match rest with [] => True | (k', _) :: _ => k' ≠ k end ∧
             runs_from key (a + len) rest b
  end.

(** The state of the loop of cut_slits: the planes are arrays of the store;
    a visualisation copy, if there is one, is an array of its own. *)
Definition loop_inv (data : loc) (uncertainty mask : option loc) (h : store)
    (d : ndarray) (cut_image : option loc) (c : ndarray) : Prop :=
  arrays h !! data = Some d ∧
  plane_ok h uncertainty ∧ plane_ok h mask ∧
  match cut_image with
  | Some l => l ≠ data ∧ Some l ≠ uncertainty ∧ Some l ≠ mask ∧ arrays h !! l = Some c
  | None => True
  end.

(** The errors of cut_slits other than the validation error. *)
Definition lookup_error (e : exn) : Prop :=
  e = TypeError ∨ e = Dangling ∨ ∃ k, e = KeyError k.

End Spec.

(** ** Sample inputs *)

Module Examples.
Import EdgeFinder.
(** An image of two columns whose rows hold the given levels. *)
Definition image_of_levels (levels : list Z) : list (list Q) :=
  (λ v, [inject_Z v; inject_Z v]) <$> levels.

(** Twelve dark rows, one row at 100, eleven rows at 140. *)
Definition two_step_image : list (list Q) :=
  image_of_levels (replicate 12 0 ++ [100] ++ replicate 11 140).

Definition uniform_image : list (list Q) := image_of_levels (replicate 8 7).

Definition no_edges : edges :=
  Edges (MaskedArray [] []) (MaskedArray [] []) [] [].

(** The edges found in [two_step_image] with one clipping pass. *)
Definition two_step_edges : edges :=
  Eval vm_compute in
    match find_mask_edges (H := RefLib.lib) two_step_image Py.slice_None 3 2 1 with
    | inr e => e
    | inl _ => no_edges
    end.
End Examples.

Module CutExamples.
Import NdArray Tbl Cutter.

Definition array_of (w : nat) (levels : list (list Z)) : ndarray :=
  Array w ((λ row : list Z, inject_Z <$> row) <$> levels).

(** A frame of three rows and four columns, and its uncertainty plane. *)
Definition sample_image : ndarray :=
  array_of 4 [[1; 2; 3; 4]; [5; 6; 7; 8]; [9; 10; 11; 12]].
Definition sample_noise : ndarray :=
  array_of 4 [[1; 1; 1; 1]; [2; 2; 2; 2]; [3; 3; 3; 3]].

(** Two slits: columns [1, 3) of rows [0, 2), and columns [0, 2) of rows
    [1, 3). *)
Definition sample_table : Table :=
  [("SECX1", IntCol [1; 0]); ("SECX2", IntCol [3; 2]);
   ("SECY1", IntCol [0; 1]); ("SECY2", IntCol [2; 3])].

Definition image_loc : loc := 0%nat.
Definition noise_loc : loc := 1%nat.
Definition table_loc : loc := 0%nat.

Definition sample_store : store :=
  Store {[ image_loc := sample_image; noise_loc := sample_noise ]}
        {[ table_loc := sample_table ]}.

(** A table that went through a part of the preparation only. *)
Definition half_prepared_table : Table := [("SECX1", IntCol [1; 0])].
Definition half_prepared_store : store :=
  Store {[ image_loc := sample_image ]} {[ table_loc := half_prepared_table ]}.

(** A slit left of the frame, as prepare_mdf_table leaves it: SECX1 clipped
    to 0 and SECX2 negative. *)
Definition left_table : Table :=
  [("SECX1", IntCol [0]); ("SECX2", IntCol [-1]);
   ("SECY1", IntCol [0]); ("SECY2", IntCol [1])].
Definition left_store : store :=
  Store {[ image_loc := sample_image ]} {[ table_loc := left_table ]}.

(** The annotated image of a call that returned one. *)
Definition annotated (r : result (store * (option loc * list ImageHDU)))
  : option ndarray :=
  match r with
  | inr (h', (Some l, _)) => arrays h' !! l
  | _ => None
  end.

End CutExamples.

Module MdfExamples.
Import Tbl Mdf.

(** A frame of 100 by 80 pixels, unit scales, a spectrum of ten pixels whose
    central wavelength falls on pixel five. *)
Definition sample_params : params :=
  {| naxis1 := 100; naxis2 := 80; x_scale := 1; y_scale := 1;
     anamorphic_factor := 1; wavelength_offset := 0; spectral_pixel_scale := 1;
     wavelength_start := 0; wavelength_central := 5; wavelength_end := 10;
     y_distortion_coefficients := (1%Q, 0%Q, 0%Q); arcsecpermm := 1; y_offset := 0 |}.

(** A mask table of slits of 1 mm by 4 mm at the given positions. *)
Definition raw_table (pos : list (Q * Q)) : Table :=
  [("slitpos_mx", RealCol (pos.*1)); ("slitpos_my", RealCol (pos.*2));
   ("slitsize_mx", RealCol ((λ _, 1%Q) <$> pos));
   ("slitsize_my", RealCol ((λ _, 4%Q) <$> pos))].

Definition mask_loc : loc := 0%nat.

Definition raw_store (pos : list (Q * Q)) : store :=
  Store ∅ {[ mask_loc := raw_table pos ]}.

(** The table that a call returned, and the caller's table after the call. *)
Definition returned_table (r : result (store * loc)) : option Table :=
  match r with inr (h', l') => tables h' !! l' | inl _ => None end.
Definition callers_table (r : result (store * loc)) : option Table :=
  match r with inr (h', _) => tables h' !! mask_loc | inl _ => None end.
Definition returned_loc (r : result (store * loc)) : option loc :=
  match r with inr (_, l') => Some l' | inl _ => None end.

End MdfExamples.

(** ** Vocabulary of the further properties *)

Module SpecX.
Import EdgeFinder NdArray Tbl Cutter Mdf.

(** The masked profiles that find_mask_edges builds from the smoothed
    gradient profile [g] and the mask [clipped] of the sigma clipping. *)
Definition peaks_of (g : list Q) (clipped : list bool) : masked_array :=
  MaskedArray g (negb <$> zip_with andb clipped (Qle_bool 0 <$> g)).
Definition troughs_of (g : list Q) (clipped : list bool) : masked_array :=
  MaskedArray g (negb <$> zip_with andb clipped ((λ d, negb (Qle_bool 0 d)) <$> g)).

(** The weights of a run have one sign. *)
Definition same_sign (w : list Q) : Prop :=
  Forall (λ d, (0 <= d)%Q) w ∨ Forall (λ d, (d < 0)%Q) w.

(** The section of an array under a box, [a[y1:y2, x1:x2]]. *)
Definition cut (a : ndarray) (b : Spec.box) : ndarray :=
  let '(x1, x2, y1, y2) := b in getslice a y1 y2 x1 x2.

(** The unclipped boxes of the slits of a table. *)
Definition boxes_of_table (p : params) (t : Table) : option boxes :=
  mx ← get_column "slitpos_mx" t;
  my ← get_column "slitpos_my" t;
  sx ← get_column "slitsize_mx" t;
  sy ← get_column "slitsize_my" t;
  Some (unclipped_boxes p (col_values mx) (col_values my) (col_values sx) (col_values sy)).

(** The length of the spectra in pixels. *)
Definition spectrum_length (p : params) : Z :=
  Np.round ((wavelength_end p - wavelength_start p) / spectral_pixel_scale p)%Q.


(** All columns have [n] entries. *)
Definition wf_n (n : nat) (t : Table) : Prop :=
  Forall (λ nc, col_length nc.2 = n) t.

(** The number of rows of a table: the length of its first column. *)
Definition nrows_of (t : Table) : nat :=
  match t with (_, c) :: _ => col_length c | [] => 0%nat end.

(** The names of the raw columns, in the order the source reads them. *)
Definition raw_columns : list string :=
  ["slitpos_mx"; "slitpos_my"; "slitsize_mx"; "slitsize_my"].

End SpecX.

Module PipelineExamples.
Import Tbl Mdf.

(** A mask table of one slit at the centre of the mask, beside a frame. *)
Definition framed_store : store :=
  Store {[ CutExamples.image_loc := CutExamples.sample_image ]}
        {[ MdfExamples.mask_loc := MdfExamples.raw_table [(0, 0)%Q] ]}.

(** A mask table that lacks the columns after slitpos_mx. *)
Definition short_table : Table := [("slitpos_mx", RealCol [0%Q])].
Definition short_store : store := Store ∅ {[ MdfExamples.mask_loc := short_table ]}.


End PipelineExamples.

(** * Facts about the result monad *)

Lemma bind_inr {A B} (m : result A) (k : A → result B) (b : B) :
  (m ≫= k) = inr b → ∃ a, m = inr a ∧ k a = inr b.
Proof. destruct m as [e|a]; [discriminate | eauto]. Qed.

Ltac inv_bind H :=
  let a := fresh "a" in
  let Ha := fresh "Hbind" in
  apply bind_inr in H as (a & Ha & H).

(** * Runs of [groupby] over a range of indices *)

Section runs.
Context (key : nat → bool).

Local Abbreviation runs_from := (Spec.runs_from key).

Lemma groupby_seq a n : runs_from a (Py.groupby key (seq a n)) (a + n).
Proof.
  revert a. induction n as [|n IH]; intros a.
  - simpl. lia.
  - replace (a + S n)%nat with (S a + n)%nat by lia.
    specialize (IH (S a)). revert IH. generalize (S a + n)%nat as b.
    intros b IH. cbn [seq Py.groupby].
    destruct (Py.groupby key (seq (S a) n)) as [|[k g] rest] eqn:E; simpl in *.
    + exists 1%nat. repeat split; try lia.
      intros i Hi. f_equal. lia.
    + destruct IH as (len & Hlen & -> & Hkey & Hne & Hrest).
      case_bool_decide as Hk.
      * exists (S len). repeat split; try lia; try done.
        -- intros i Hi. destruct (decide (i = a)) as [->|]; [done|].
           apply Hkey. lia.
        -- replace (a + S len)%nat with (S a + len)%nat by lia. done.
      * exists 1%nat. repeat split; try lia.
        -- intros i Hi. f_equal. lia.
        -- congruence.
        -- replace (a + 1)%nat with (S a) by lia.
           exists len. repeat split; try done.
Qed.

Lemma runs_from_elem a0 gs : ∀ a b,
  runs_from a gs b →
  (a = a0 ∨ match gs with (k, _) :: _ => key (a - 1) ≠ k | [] => True end) →
  ∀ k g, (k, g) ∈ gs →
    ∃ s len, g = seq s len ∧ (1 ≤ len)%nat ∧ (a ≤ s)%nat ∧ (s + len ≤ b)%nat ∧
             (∀ i, (s ≤ i < s + len)%nat → key i = k) ∧
             (s = a0 ∨ key (s - 1) ≠ k) ∧
             ((s + len)%nat = b ∨ key (s + len) ≠ k).
Proof.
  induction gs as [|[k0 g0] rest IH]; intros a b Hruns Hleft k g Hin.
  - by apply elem_of_nil in Hin.
  - simpl in Hruns. destruct Hruns as (len & Hlen & -> & Hkey & Hne & Hrest).
    assert (Hb : (a + len ≤ b)%nat).
    { clear -Hrest Hlen. revert Hrest. generalize (a + len)%nat as c.
      induction rest as [|[k1 g1] r IHr]; intros c; simpl.
      - lia.
      - intros (l1 & ? & _ & _ & _ & Hr). apply IHr in Hr. lia. }
    apply elem_of_cons in Hin as [Heq | Hin].
    + injection Heq as -> ->. exists a, len. repeat split; try done.
      destruct rest as [|[k1 g1] r]; simpl in *.
      * left. done.
      * right. destruct Hrest as (l1 & Hl1 & _ & Hk1 & _).
        rewrite (Hk1 (a + len)%nat) by lia. done.
    + destruct (IH (a + len)%nat b Hrest) with (k := k) (g := g)
        as (s & l & -> & ? & ? & ? & ? & ? & ?); try done.
      * right. destruct rest as [|[k1 g1] r]; [done|].
        replace (a + len - 1)%nat with (a + (len - 1))%nat by lia.
        rewrite (Hkey (a + (len - 1))%nat) by lia. done.
      * exists s, l. repeat split; try done. lia.
Qed.


End runs.

(** * Sums of rationals *)

Lemma Qsum_abs_nonneg (a w : list Q) :
  Forall (λ x, (0 <= x)%Q) w →
  (Np.Qsum (Qabs <$> w) == Np.Qsum w)%Q ∧
  (Np.Qsum (zip_with Qmult a (Qabs <$> w)) == Np.Qsum (zip_with Qmult a w))%Q.
Proof.
  intros Hw. revert a. induction Hw as [|x w Hx Hw IH]; intros a.
  - split; [reflexivity|]. destruct a; reflexivity.
  - destruct a as [|y a]; simpl.
    + destruct (IH []) as [IH1 _]. split; [|reflexivity].
      rewrite IH1, (Qabs_pos x Hx). reflexivity.
    + destruct (IH a) as [IH1 IH2]. split.
      * rewrite IH1, (Qabs_pos x Hx). reflexivity.
      * rewrite IH2, (Qabs_pos x Hx). reflexivity.
Qed.

Lemma Qsum_abs_neg (a w : list Q) :
  Forall (λ x, (x < 0)%Q) w →
  (Np.Qsum (Qabs <$> w) == - Np.Qsum w)%Q ∧
  (Np.Qsum (zip_with Qmult a (Qabs <$> w)) == - Np.Qsum (zip_with Qmult a w))%Q.
Proof.
  intros Hw. revert a. induction Hw as [|x w Hx Hw IH]; intros a.
  - split; [reflexivity|]. destruct a; reflexivity.
  - assert (Hax : (Qabs x == - x)%Q) by (apply Qabs_neg, Qlt_le_weak, Hx).
    destruct a as [|y a]; simpl.
    + destruct (IH []) as [IH1 _]. split; [|reflexivity].
      rewrite IH1, Hax. ring.
    + destruct (IH a) as [IH1 IH2]. split.
      * rewrite IH1, Hax. ring.
      * rewrite IH2, Hax. ring.
Qed.

(** * The loop over the edge groups *)

Lemma fancy_index_inr (prof : list Q) (g : list nat) (w : list Q) :
  Np.fancy_index prof g = inr w →
  w = Spec.weights_at prof g ∧ Forall (λ i, is_Some (prof !! i)) g.
Proof.
  unfold Np.fancy_index.
  revert w. induction g as [|i g IH]; intros w Hw; simpl in Hw.
  - unfold ok in Hw. injection Hw as <-. split; [done | constructor].
  - destruct (prof !! i) as [v|] eqn:Hi; [|discriminate]. simpl in Hw.
    inv_bind Hw. unfold ok in Hw. injection Hw as <-.
    destruct (IH _ Hbind) as [-> Hall]. split.
    + simpl. f_equal. by rewrite nth_lookup, Hi.
    + constructor; [by rewrite Hi | done].
Qed.

Lemma centroid_inr (prof : list Q) (g : list nat) (c : Q) :
  EdgeFinder.centroid prof g = inr c →
  let w := Spec.weights_at prof g in
  ¬ (Np.Qsum w == 0)%Q ∧
  c = (Np.Qsum (zip_with Qmult (Np.of_index <$> g) w) / Np.Qsum w)%Q ∧
  Forall (λ i, is_Some (prof !! i)) g.
Proof.
  unfold EdgeFinder.centroid. intros Hc. inv_bind Hc.
  apply fancy_index_inr in Hbind as [-> Hall].
  unfold Np.average in Hc.
  destruct (Qeq_bool _ 0) eqn:Hz; [discriminate|].
  unfold ok in Hc. injection Hc as <-. repeat split; [|done].
  intros Heq. apply Qeq_bool_iff in Heq. congruence.
Qed.

Lemma edges_of_groups_inr (prof : list Q) (gs : list (list nat)) (es : list Q) :
  EdgeFinder.edges_of_groups prof gs = inr es →
  Forall2 (λ c g, EdgeFinder.centroid prof g = inr c) es
          (filter (λ g, length g ≠ 1%nat) gs).
Proof.
  revert es. induction gs as [|g gs IH]; intros es Hes; simpl in Hes.
  - unfold ok in Hes. injection Hes as <-. constructor.
  - rewrite filter_cons. case_bool_decide as Hlen.
    + rewrite decide_False by (intros ?; done). by apply IH.
    + rewrite decide_True by done.
      inv_bind Hes. inv_bind Hes. unfold ok in Hes. injection Hes as <-.
      constructor; [done | by apply IH].
Qed.


(** * The edge groups of a masked profile *)

Lemma edge_groups_run (m : EdgeFinder.masked_array) (g : list nat) :
  g ∈ EdgeFinder.edge_groups m →
  ∃ s len, g = seq s len ∧
           Spec.is_maximal_run (Spec.candidate m) (length (EdgeFinder.ma_data m)) s len.
Proof.
  unfold EdgeFinder.edge_groups. intros Hg.
  apply list_elem_of_fmap in Hg as ([k g'] & -> & Hin).
  apply list_elem_of_filter in Hin as [Hk Hin]. simpl in Hk. subst k.
  pose proof (groupby_seq (EdgeFinder.mask_at (EdgeFinder.ma_mask m)) 0
                          (length (EdgeFinder.ma_data m))) as Hruns.
  eapply (runs_from_elem _ 0%nat) in Hin as (s & len & -> & ? & ? & ? & Hkey & Hl & Hr);
    [| exact Hruns | by left].
  exists s, len. split; [done|]. unfold Spec.is_maximal_run, Spec.candidate.
  repeat split; try done.
  - intros i Hi. by rewrite (Hkey i Hi).
  - destruct Hl as [?|Hl]; [by left | right].
    by destruct (EdgeFinder.mask_at _ (s - 1)).
  - destruct Hr as [?|Hr]; [by left | right].
    by destruct (EdgeFinder.mask_at _ (s + len)).
Qed.


Lemma edge_groups_all_masked (m : EdgeFinder.masked_array) :
  (∀ i, (i < length (EdgeFinder.ma_data m))%nat → Spec.candidate m i = false) →
  EdgeFinder.edge_groups m = [].
Proof.
  intros Hnone. destruct (EdgeFinder.edge_groups m) as [|g gs] eqn:E; [done|].
  assert (Hg : g ∈ EdgeFinder.edge_groups m) by (rewrite E; left).
  apply edge_groups_run in Hg as (s & len & _ & Hlen & Hn & Hc & _).
  specialize (Hc s ltac:(lia)). rewrite Hnone in Hc by lia. discriminate.
Qed.

Lemma edge_from_run (prof : list Q) (m : EdgeFinder.masked_array) (es : list Q) :
  EdgeFinder.edges_of_groups prof (EdgeFinder.edge_groups m) = inr es →
  ∀ c, c ∈ es →
    ∃ s len, (2 ≤ len)%nat ∧
             Spec.is_maximal_run (Spec.candidate m) (length (EdgeFinder.ma_data m)) s len ∧
             EdgeFinder.centroid prof (seq s len) = inr c.
Proof.
  intros Hes c Hc. apply edges_of_groups_inr in Hes.
  apply list_elem_of_lookup in Hc as [j Hj].
  destruct (Forall2_lookup_l _ _ _ _ _ Hes Hj) as (g & Hg & Hcen).
  apply list_elem_of_lookup_2, list_elem_of_filter in Hg as [Hlen Hg].
  apply edge_groups_run in Hg as (s & len & -> & Hrun).
  exists s, len. split; [|done].
  rewrite length_seq in Hlen. destruct Hrun as (? & _). lia.
Qed.

Section find_mask_edges_facts.
Context `{SignalLib}.
Import EdgeFinder.

Lemma find_mask_edges_inr img cols s1 s2 it e :
  find_mask_edges img cols s1 s2 it = inr e →
  let prof := gradient_profile_of img cols s1 in
  let cm := sigma_clip prof s2 it in
  peaks e = MaskedArray prof (negb <$> zip_with andb cm (Qle_bool 0 <$> prof)) ∧
  troughs e =
    MaskedArray prof (negb <$> zip_with andb cm ((λ d, negb (Qle_bool 0 d)) <$> prof)) ∧
  edges_of_groups prof (edge_groups (peaks e)) = inr (lower_edges e) ∧
  edges_of_groups prof (edge_groups (troughs e)) = inr (upper_edges e).
Proof.
  unfold find_mask_edges. intros He. inv_bind He. inv_bind He.
  unfold ok in He. injection He as <-. simpl. done.
Qed.

Lemma candidate_sign (prof : list Q) (cm : list bool) (f : Q → bool) (i : nat) :
  Spec.candidate (MaskedArray prof (negb <$> zip_with andb cm (f <$> prof))) i = true →
  ∃ d, prof !! i = Some d ∧ f d = true ∧ cm !! i = Some true.
Proof.
  unfold Spec.candidate, mask_at. simpl.
  rewrite list_lookup_fmap, lookup_zip_with, list_lookup_fmap.
  destruct (cm !! i) as [b|]; simpl; [|discriminate].
  destruct (prof !! i) as [d|]; simpl; [|discriminate].
  destruct b, (f d) eqn:Hf; simpl; try discriminate. eauto.
Qed.

Lemma run_weights (prof : list Q) (cm : list bool) (f : Q → bool) (P : Q → Prop)
    (n s len : nat) :
  (∀ d, f d = true → P d) →
  Spec.is_maximal_run
    (Spec.candidate (MaskedArray prof (negb <$> zip_with andb cm (f <$> prof)))) n s len →
  Forall P (Spec.weights_at prof (seq s len)).
Proof.
  intros HP (_ & _ & Hc & _). apply Forall_fmap, Forall_forall. intros i Hi.
  apply elem_of_seq in Hi. apply Hc, candidate_sign in Hi as (d & Hd & Hf & _).
  simpl. rewrite nth_lookup, Hd. by apply HP.
Qed.

End find_mask_edges_facts.

(** * Claims about find_mask_edges *)

Section edge_claims.
Context `{SignalLib}.
Import EdgeFinder.

(** C5 (amended).  Every reported edge position comes from a maximal run of
    at least two consecutive candidate rows, and equals the average of that
    run's row indices weighted by the magnitude of the gradient profile at
    those rows, where the gradient profile is the smoothed one, the output
    of the Gaussian filter. *)
Theorem edge_is_centroid_of_run img cols s1 s2 it e :
  find_mask_edges img cols s1 s2 it = inr e →
  let g := gradient_profile_of img cols s1 in
  (∀ c, c ∈ lower_edges e →
     ∃ s len, (2 ≤ len)%nat ∧
              Spec.is_maximal_run (Spec.candidate (peaks e)) (length g) s len ∧
              (c == Spec.magnitude_centroid g (seq s len))%Q) ∧
  (∀ c, c ∈ upper_edges e →
     ∃ s len, (2 ≤ len)%nat ∧
              Spec.is_maximal_run (Spec.candidate (troughs e)) (length g) s len ∧
              (c == Spec.magnitude_centroid g (seq s len))%Q).
Proof.
  intros He g. apply find_mask_edges_inr in He as (Hp & Ht & Hlo & Hup).
  fold g in Hp, Ht, Hlo, Hup. split; intros c Hc.
  - destruct (edge_from_run _ _ _ Hlo c Hc) as (s & len & Hlen & Hrun & Hcen).
    exists s, len. split; [done|]. split.
    { replace (length g) with (length (ma_data (peaks e))); [done|].
      by rewrite Hp. }
    apply centroid_inr in Hcen as (_ & -> & _).
    rewrite Hp in Hrun.
    eapply run_weights with (P := λ d, (0 <= d)%Q) in Hrun;
      [| intros d Hd; by apply Qle_bool_iff].
    unfold Spec.magnitude_centroid. cbv zeta.
    destruct (Qsum_abs_nonneg (Np.of_index <$> seq s len) _ Hrun) as [E1 E2].
    rewrite E1, E2. reflexivity.
  - destruct (edge_from_run _ _ _ Hup c Hc) as (s & len & Hlen & Hrun & Hcen).
    exists s, len. split; [done|]. split.
    { replace (length g) with (length (ma_data (troughs e))); [done|].
      by rewrite Ht. }
    apply centroid_inr in Hcen as (Hnz & -> & _).
    rewrite Ht in Hrun.
    eapply run_weights with (P := λ d, (d < 0)%Q) in Hrun.
    2:{ intros d Hd. apply Qnot_le_lt. intros Hle.
        apply Qle_bool_iff in Hle. rewrite Hle in Hd. discriminate. }
    unfold Spec.magnitude_centroid. cbv zeta.
    destruct (Qsum_abs_neg (Np.of_index <$> seq s len) _ Hrun) as [E1 E2].
    rewrite E1, E2. field. exact Hnz.
Qed.

(** C8.  On an image with no rows, or on any image whose gradient profile
    has no sample flagged by the sigma clipping, find_mask_edges returns
    (it does not raise) and both edge sequences are empty. *)
Theorem no_outliers_no_edges img cols s1 s2 it :
  img = [] ∨
  Forall (λ b, b = false) (sigma_clip (gradient_profile_of img cols s1) s2 it) →
  ∃ e, find_mask_edges img cols s1 s2 it = inr e ∧
       lower_edges e = [] ∧ upper_edges e = [].
Proof.
  intros Hin. unfold find_mask_edges.
  set (prof := gradient_profile_of img cols s1).
  set (cm := sigma_clip prof s2 it).
  assert (Hnone : ∀ f, edge_groups
            (MaskedArray prof (negb <$> zip_with andb cm (f <$> prof))) = []).
  { intros f. apply edge_groups_all_masked. simpl. intros i Hi.
    destruct (Spec.candidate _ i) eqn:Hc; [|done].
    apply candidate_sign in Hc as (d & Hd & _ & Hcm).
    destruct Hin as [-> | Hall].
    - unfold prof, gradient_profile_of in Hi.
      rewrite gaussian_filter_length in Hi. simpl in Hi. lia.
    - rewrite Forall_forall in Hall.
      apply list_elem_of_lookup_2, Hall in Hcm. discriminate. }
  rewrite !Hnone. simpl. eexists. split; [reflexivity | done].
Qed.


End edge_claims.

Section edge_examples.
Import EdgeFinder Examples.

(** Witness of C5 on [two_step_image]. *)
Lemma edge_is_centroid_of_run_witness :
  find_mask_edges (H := RefLib.lib) two_step_image Py.slice_None 3 2 1
    = inr two_step_edges ∧
  ∀ c, c ∈ lower_edges two_step_edges →
    ∃ s len, (2 ≤ len)%nat ∧
      Spec.is_maximal_run (Spec.candidate (peaks two_step_edges))
        (length (gradient_profile_of (H := RefLib.lib) two_step_image Py.slice_None 3))
        s len ∧
      (c == Spec.magnitude_centroid
              (gradient_profile_of (H := RefLib.lib) two_step_image Py.slice_None 3)
              (seq s len))%Q.
Proof.
  assert (E : find_mask_edges (H := RefLib.lib) two_step_image Py.slice_None 3 2 1
              = inr two_step_edges) by (vm_compute; reflexivity).
  split; [exact E|].
  exact (proj1 (edge_is_centroid_of_run _ _ _ _ _ _ E)).
Defined.

(** C5 as stated fails: on [two_step_image] the only run of candidates is
    rows 11 and 12, and the reported edge is not the centroid of that run
    under the weights of the unsmoothed gradient profile. *)
Lemma unsmoothed_weights_refuted :
  ¬ (∀ e, find_mask_edges (H := RefLib.lib) two_step_image Py.slice_None 3 2 1 = inr e →
       ∀ c, c ∈ lower_edges e →
         ∃ s len, (2 ≤ len)%nat ∧
           Spec.is_maximal_run (Spec.candidate (peaks e))
             (length (Spec.unsmoothed_profile_of two_step_image Py.slice_None)) s len ∧
           (c == Spec.magnitude_centroid
                   (Spec.unsmoothed_profile_of two_step_image Py.slice_None)
                   (seq s len))%Q).
Proof.
  intros Hclaim.
  assert (E : find_mask_edges (H := RefLib.lib) two_step_image Py.slice_None 3 2 1
              = inr two_step_edges) by (vm_compute; reflexivity).
  specialize (Hclaim _ E).
  destruct (Hclaim (5153960755200 # 450971566080)%Q) as (s & len & Hlen & Hrun & Hc).
  { vm_compute. left. }
  destruct Hrun as (_ & Hn & Hcand & _).
  change (length _) with 23%nat in Hn.
  assert (Hs : Spec.candidate (peaks two_step_edges) s = true) by (apply Hcand; lia).
  assert (Hs1 : Spec.candidate (peaks two_step_edges) (S s) = true) by (apply Hcand; lia).
  assert (s = 11%nat) as ->.
  { do 23 (destruct s as [|s]; [try discriminate Hs; try discriminate Hs1; try done|]).
    lia. }
  destruct (decide (len = 2%nat)) as [->|Hne].
  - vm_compute in Hc. discriminate.
  - assert (H13 : Spec.candidate (peaks two_step_edges) 13 = true) by (apply Hcand; lia).
    discriminate.
Qed.

(** Witness of C8: a uniform image has no clipped sample. *)
Lemma no_outliers_no_edges_witness :
  Forall (λ b, b = false)
         (@sigma_clip RefLib.lib (gradient_profile_of (H := RefLib.lib) uniform_image Py.slice_None 3) 2 5) ∧
  ∃ e, find_mask_edges (H := RefLib.lib) uniform_image Py.slice_None 3 2 5 = inr e ∧
       lower_edges e = [] ∧ upper_edges e = [].
Proof.
  assert (Hnone : Forall (λ b, b = false)
            (@sigma_clip RefLib.lib (gradient_profile_of (H := RefLib.lib) uniform_image
                                             Py.slice_None 3) 2 5)).
  { vm_compute. repeat constructor. }
  split; [exact Hnone|].
  exact (no_outliers_no_edges uniform_image Py.slice_None 3 2 5 (or_intror Hnone)).
Defined.


End edge_examples.

(** * Slices with bounds inside the sequence *)

Lemma norm_index_nonneg (n : nat) (i : Z) :
  0 ≤ i → Py.norm_index n i = (Z.to_nat i `min` n)%nat.
Proof. intros Hi. unfold Py.norm_index. case_match; lia. Qed.

Lemma in_slice_nonneg (n : nat) (lo hi : Z) (i : nat) :
  0 ≤ lo → 0 ≤ hi → (i < n)%nat →
  Py.in_slice n lo hi i = bool_decide (lo ≤ Z.of_nat i < hi).
Proof.
  intros Hlo Hhi Hi. unfold Py.in_slice. rewrite !norm_index_nonneg by done.
  apply eq_true_iff_eq. rewrite !andb_true_iff, bool_decide_eq_true.
  rewrite Nat.leb_le, !Nat.ltb_lt. lia.
Qed.

Lemma slice_list_length {A} (l : list A) (lo hi : Z) :
  0 ≤ lo ≤ hi → hi ≤ Z.of_nat (length l) →
  length (Py.slice_list lo hi l) = Z.to_nat (hi - lo).
Proof.
  intros Hlo Hhi. unfold Py.slice_list, Py.slice_len.
  rewrite length_take, length_drop, !norm_index_nonneg by lia. lia.
Qed.

Lemma slice_list_lookup {A} (l : list A) (lo hi : Z) (k : nat) :
  0 ≤ lo ≤ hi → hi ≤ Z.of_nat (length l) → (k < Z.to_nat (hi - lo))%nat →
  Py.slice_list lo hi l !! k = l !! (Z.to_nat lo + k)%nat.
Proof.
  intros Hlo Hhi Hk. unfold Py.slice_list, Py.slice_len.
  rewrite !norm_index_nonneg by lia.
  rewrite lookup_take_lt by lia. rewrite lookup_drop. f_equal. lia.
Qed.

(** * Tables *)

Lemma get_column_None (name : string) (t : Tbl.Table) :
  Tbl.get_column name t = None ↔ name ∉ Tbl.colnames t.
Proof.
  unfold Tbl.colnames. induction t as [|[n c] t IH]; simpl.
  - split; [intros _; apply not_elem_of_nil | done].
  - rewrite not_elem_of_cons. case_bool_decide as Hn; subst.
    + split; [done | intros [? _]; done].
    + rewrite IH. split; [intros ?; split; [congruence | done] | intros [_ ?]; done].
Qed.

Lemma sec_rows_prepared (t : Tbl.Table) (x1 x2 y1 y2 : list Z) :
  Spec.prepared t x1 x2 y1 y2 →
  Cutter.sec_rows t = inr (Spec.cells_of <$> Spec.boxes_of x1 x2 y1 y2).
Proof.
  intros (H1 & H2 & H3 & H4 & _). unfold Cutter.sec_rows, Tbl.getitem.
  rewrite H1, H2, H3, H4. simpl. unfold ok. f_equal.
  unfold Spec.boxes_of. clear.
  revert x2 y1 y2. induction x1 as [|a x1 IH]; intros [|b x2] [|c y1] [|d y2];
    simpl; try done.
  by rewrite IH.
Qed.

(** * The loop of cut_slits *)

Section cut_loop_facts.
Import NdArray Tbl Cutter.
Context (data : loc) (uncertainty mask : option loc).

Local Abbreviation loop_inv := (Spec.loop_inv data uncertainty mask).

Lemma cut_one_spec h d cut_image c i b acc :
  loop_inv h d cut_image c →
  ∃ h', cut_one h data uncertainty mask cut_image i (Spec.cells_of b) acc
          = inr (h', acc ++ Spec.row_hdus d (Spec.plane h uncertainty)
                                          (Spec.plane h mask) i b) ∧
        tables h' = tables h ∧
        arrays h' = match cut_image with
                    | Some l => <[l := Spec.stamp c b]> (arrays h)
                    | None => arrays h
                    end.
Proof.
  intros (Hd & Hu & Hm & Hc). destruct b as [[[x1 x2] y1] y2].
  unfold cut_one, Spec.cells_of, read_array. simpl. rewrite Hd. simpl.
  destruct cut_image as [l|].
  - destruct Hc as (Hld & Hlu & Hlm & Hl). rewrite Hl. simpl.
    exists (write_array h l (setslice c y1 y2 x1 x2 sentinel)).
    split; [|split; [reflexivity | reflexivity]].
    destruct uncertainty as [u|], mask as [m|]; simpl in *.
    + destruct Hu as [ua Hua], Hm as [ma Hma].
      rewrite !lookup_insert_ne by congruence. rewrite Hua, Hma. simpl.
      unfold ok. by rewrite <- !app_assoc.
    + destruct Hu as [ua Hua].
      rewrite !lookup_insert_ne by congruence. rewrite Hua. simpl.
      unfold ok. by rewrite <- !app_assoc.
    + destruct Hm as [ma Hma].
      rewrite !lookup_insert_ne by congruence. rewrite Hma. simpl.
      unfold ok. by rewrite <- !app_assoc.
    + unfold ok. done.
  - exists h. split; [|split; [reflexivity | reflexivity]].
    destruct uncertainty as [u|], mask as [m|]; simpl in *.
    + destruct Hu as [ua Hua], Hm as [ma Hma]. rewrite Hua, Hma. simpl.
      unfold ok. by rewrite <- !app_assoc.
    + destruct Hu as [ua Hua]. rewrite Hua. simpl.
      unfold ok. by rewrite <- !app_assoc.
    + destruct Hm as [ma Hma]. rewrite Hma. simpl.
      unfold ok. by rewrite <- !app_assoc.
    + unfold ok. done.
Qed.

Lemma cut_loop_spec bs : ∀ h d cut_image c i acc,
  loop_inv h d cut_image c →
  ∃ h', cut_loop h data uncertainty mask cut_image i (Spec.cells_of <$> bs) acc
          = inr (h', acc ++ Spec.bundle_from d (Spec.plane h uncertainty)
                                             (Spec.plane h mask) i bs) ∧
        tables h' = tables h ∧
        arrays h' = match cut_image with
                    | Some l => <[l := Spec.stamp_all c bs]> (arrays h)
                    | None => arrays h
                    end.
Proof.
  induction bs as [|b bs IH]; intros h d cut_image c i acc Hinv.
  - exists h. simpl. rewrite app_nil_r. repeat split.
    destruct cut_image as [l|]; [|done].
    destruct Hinv as (_ & _ & _ & _ & _ & _ & Hl). by rewrite insert_id.
  - rewrite fmap_cons. cbn [cut_loop].
    destruct (cut_one_spec h d cut_image c i b acc Hinv) as (h1 & -> & Ht1 & Ha1).
    simpl.
    assert (Hinv1 : loop_inv h1 d cut_image (Spec.stamp c b)).
    { destruct Hinv as (Hd & Hu & Hm & Hc). unfold loop_inv, Spec.plane_ok.
      rewrite Ha1. destruct cut_image as [l|]; [|done].
      destruct Hc as (Hld & Hlu & Hlm & Hl).
      rewrite lookup_insert_ne by done. repeat split; try done.
      - destruct uncertainty as [u|]; [|done].
        rewrite lookup_insert_ne by congruence. done.
      - destruct mask as [m|]; [|done].
        rewrite lookup_insert_ne by congruence. done.
      - by rewrite lookup_insert_eq. }
    destruct (IH h1 d cut_image (Spec.stamp c b) (S i)
                 (acc ++ Spec.row_hdus d (Spec.plane h uncertainty)
                                       (Spec.plane h mask) i b) Hinv1)
      as (h2 & -> & Ht2 & Ha2).
    exists h2. split; [|split].
    + f_equal. f_equal. rewrite <- app_assoc. f_equal. simpl. f_equal.
      assert (Hp : ∀ p, Spec.plane_ok h p →
                        (match cut_image with Some l => Some l ≠ p | None => True end) →
                        Spec.plane h1 p = Spec.plane h p).
      { intros [u|] Hok Hne; [|done]. unfold Spec.plane. simpl. rewrite Ha1.
        destruct cut_image as [l|]; [|done].
        rewrite lookup_insert_ne by congruence. done. }
      destruct Hinv as (_ & Hu & Hm & Hc).
      rewrite !Hp; try done; destruct cut_image; try done; by destruct Hc as (_ & ? & ? & _).
    + congruence.
    + rewrite Ha2, Ha1. destruct cut_image as [l|]; [|done].
      by rewrite insert_insert_eq.
Qed.

End cut_loop_facts.

(** * cut_slits on a prepared table *)

Lemma fresh_array_ne (h : store) (l : loc) :
  is_Some (arrays h !! l) → fresh (dom (arrays h)) ≠ l.
Proof.
  intros Hl E. apply elem_of_dom in Hl. rewrite <- E in Hl.
  by apply is_fresh in Hl.
Qed.

Lemma fresh_plane_ne (h : store) (p : option loc) :
  Spec.plane_ok h p → Some (fresh (dom (arrays h))) ≠ p.
Proof.
  destruct p as [u|]; [|done]. simpl. intros Hu [= E].
  by apply (fresh_array_ne h u).
Qed.

Lemma plane_alloc (h : store) (a : NdArray.ndarray) (p : option loc) :
  Spec.plane_ok h p →
  Spec.plane (write_array h (fresh (dom (arrays h))) a) p = Spec.plane h p.
Proof.
  intros Hp. destruct p as [u|]; [|done]. simpl.
  rewrite lookup_insert_ne; [done|]. by apply fresh_array_ne.
Qed.

Lemma cut_slits_spec h data tbl uncertainty mask return_cut_image t d x1 x2 y1 y2 :
  tables h !! tbl = Some t → Spec.prepared t x1 x2 y1 y2 →
  arrays h !! data = Some d →
  Spec.plane_ok h uncertainty → Spec.plane_ok h mask →
  let bs := Spec.boxes_of x1 x2 y1 y2 in
  ∃ h' cut_image,
    Cutter.cut_slits h data tbl uncertainty mask return_cut_image
      = inr (h', (cut_image,
                  Spec.bundle_from d (Spec.plane h uncertainty) (Spec.plane h mask) 0 bs)) ∧
    tables h' = tables h ∧
    if return_cut_image
    then cut_image = Some (fresh (dom (arrays h))) ∧
         arrays h' = <[fresh (dom (arrays h)) := Spec.stamp_all d bs]> (arrays h)
    else cut_image = None ∧ arrays h' = arrays h.
Proof.
  intros Ht Hprep Hd Hu Hm bs. unfold Cutter.cut_slits, read_table, read_array.
  rewrite Ht. simpl.
  rewrite bool_decide_false.
  2:{ intros Hno. apply get_column_None in Hno.
      destruct Hprep as (H1 & _). congruence. }
  rewrite (sec_rows_prepared _ _ _ _ _ Hprep). fold bs.
  destruct return_cut_image.
  - rewrite Hd. simpl. set (l := fresh (dom (arrays h))).
    destruct (cut_loop_spec data uncertainty mask bs (write_array h l d) d (Some l) d 0%nat [])
      as (h' & E & Ht' & Ha').
    { repeat split.
      - simpl. rewrite lookup_insert_ne; [done|]. apply fresh_array_ne. by rewrite Hd.
      - destruct uncertainty as [u|]; [|done]. simpl in *.
        rewrite lookup_insert_ne; [done|]. by apply fresh_array_ne.
      - destruct mask as [m|]; [|done]. simpl in *.
        rewrite lookup_insert_ne; [done|]. by apply fresh_array_ne.
      - apply fresh_array_ne. by rewrite Hd.
      - by apply fresh_plane_ne.
      - by apply fresh_plane_ne.
      - simpl. by rewrite lookup_insert_eq. }
    rewrite E. simpl. exists h', (Some l). repeat split; try done.
    + do 3 f_equal. unfold l. by rewrite !plane_alloc.
    + rewrite Ha'. simpl. by rewrite insert_insert_eq.
  - simpl.
    destruct (cut_loop_spec data uncertainty mask bs h d None d 0%nat [])
      as (h' & E & Ht' & Ha'); [done|].
    rewrite E. simpl. by exists h', None.
Qed.

(** * The bundle *)

Section bundle_facts.
Import NdArray Cutter.
Context (d : ndarray) (ua ma : option (loc * ndarray)).



Lemma bundle_from_length bs i :
  length (Spec.bundle_from d ua ma i bs)
  = (length bs * (1 + Spec.supplied ua + Spec.supplied ma))%nat.
Proof.
  revert i. induction bs as [|b bs IH]; intros i; [done|].
  simpl. rewrite length_app, IH. destruct b as [[[x1 x2] y1] y2].
  destruct ua as [[??]|], ma as [[??]|]; simpl; lia.
Qed.

Lemma bundle_from_elem bs : ∀ i hdu,
  hdu ∈ Spec.bundle_from d ua ma i bs ↔
  ∃ j b, bs !! j = Some b ∧ hdu ∈ Spec.row_hdus d ua ma (i + j) b.
Proof.
  induction bs as [|b bs IH]; intros i hdu; simpl.
  - split; [by intros ?%elem_of_nil | by intros (j & b & ? & _)].
  - rewrite elem_of_app, IH. split.
    + intros [Hin | (j & b' & Hj & Hin)].
      * exists 0%nat, b. by rewrite Nat.add_0_r.
      * exists (S j), b'. split; [done|]. by replace (i + S j)%nat with (S i + j)%nat by lia.
    + intros ([|j] & b' & Hj & Hin); simpl in Hj.
      * injection Hj as <-. left. by rewrite Nat.add_0_r in Hin.
      * right. exists j, b'. split; [done|].
        by replace (S i + j)%nat with (i + S j)%nat by lia.
Qed.

End bundle_facts.

Lemma label_inj (prefix : string) (i j : nat) :
  Py.label prefix i = Py.label prefix j → i = j.
Proof.
  unfold Py.label. intros E. apply (inj (String.app prefix)) in E.
  simpl in E. injection E as E. by apply (inj pretty).
Qed.

Lemma boxes_of_length (x1 x2 y1 y2 : list Z) :
  length x2 = length x1 → length y1 = length x1 → length y2 = length x1 →
  length (Spec.boxes_of x1 x2 y1 y2) = length x1.
Proof.
  intros H2 H3 H4. unfold Spec.boxes_of. rewrite !length_zip_with. lia.
Qed.


(** * Claims about cut_slits *)

Section cut_claims.
Import NdArray Tbl Cutter.
Context (h : store) (data tbl : loc) (uncertainty mask : option loc).
Context (t : Table) (d : ndarray) (xs1 xs2 ys1 ys2 : list Z).
Hypothesis Htbl : tables h !! tbl = Some t.
Hypothesis Hprep : Spec.prepared t xs1 xs2 ys1 ys2.
Hypothesis Hdata : arrays h !! data = Some d.
Hypothesis Hunc : Spec.plane_ok h uncertainty.
Hypothesis Hmask : Spec.plane_ok h mask.


(** C3.  For a row whose bounding box lies within the image, the bundle
    holds a cut-out labelled with the index of the row, and that cut-out has
    shape (y2 - y1, x2 - x1) and holds image[y1:y2, x1:x2]: its sample (r, c)
    is the sample (y1 + r, x1 + c) of the image. *)
Theorem cutout_is_image_section (return_cut_image : bool) (i : nat)
    (x1 x2 y1 y2 : Z) :
  NdArray.wf d →
  Spec.boxes_of xs1 xs2 ys1 ys2 !! i = Some (x1, x2, y1, y2) →
  0 ≤ x1 ≤ x2 → x2 ≤ Z.of_nat (ncols d) →
  0 ≤ y1 ≤ y2 → y2 ≤ Z.of_nat (nrows d) →
  ∃ h' cut_image bundle,
    cut_slits h data tbl uncertainty mask return_cut_image
      = inr (h', (cut_image, bundle)) ∧
    (∃ hdu, hdu ∈ bundle ∧ hdu_name hdu = Py.label "DATA" i) ∧
    ∀ hdu, hdu ∈ bundle → hdu_name hdu = Py.label "DATA" i →
      shape (hdu_data hdu) = (Z.to_nat (y2 - y1), Z.to_nat (x2 - x1)) ∧
      ∀ r c, (r < Z.to_nat (y2 - y1))%nat → (c < Z.to_nat (x2 - x1))%nat →
        is_Some (get d (Z.to_nat y1 + r) (Z.to_nat x1 + c)) ∧
        get (hdu_data hdu) r c = get d (Z.to_nat y1 + r) (Z.to_nat x1 + c).
Proof.
  intros Hwf Hi Hx1 Hx2 Hy1 Hy2.
  destruct (cut_slits_spec h data tbl uncertainty mask return_cut_image
              t d xs1 xs2 ys1 ys2 Htbl Hprep Hdata Hunc Hmask)
    as (h' & ci & E & _).
  exists h', ci. eexists. split; [exact E|]. split.
  - eexists. split.
    + apply bundle_from_elem. exists i, (x1, x2, y1, y2). split; [done|].
      simpl. left.
    + done.
  - intros hdu Hin Hname.
    apply bundle_from_elem in Hin as (j & [[[x1' x2'] y1'] y2'] & Hj & Hin).
    simpl in Hin.
    assert (Hhdu : j = i ∧ hdu = HDU (Py.label "DATA" j) (getslice d y1' y2' x1' x2') None).
    { apply elem_of_cons in Hin as [-> | Hin].
      - simpl in Hname. by apply label_inj in Hname.
      - exfalso. apply elem_of_app in Hin as [Hin | Hin].
        + destruct (Spec.plane h uncertainty) as [[??]|];
            [|by apply elem_of_nil in Hin].
          apply list_elem_of_singleton in Hin as ->. discriminate Hname.
        + destruct (Spec.plane h mask) as [[??]|];
            [|by apply elem_of_nil in Hin].
          apply list_elem_of_singleton in Hin as ->. discriminate Hname. }
    destruct Hhdu as [-> ->].
    change (Spec.boxes_of xs1 xs2 ys1 ys2 !! i = Some (x1', x2', y1', y2')) in Hj.
    rewrite Hi in Hj. injection Hj as <- <- <- <-.
    simpl. unfold shape, nrows, getslice. simpl.
    rewrite length_fmap, slice_list_length by (fold (nrows d); lia).
    unfold Py.slice_len. rewrite !norm_index_nonneg by lia.
    split; [f_equal; lia|].
    intros r c Hr Hc. unfold get. simpl.
    rewrite list_lookup_fmap, slice_list_lookup by (fold (nrows d); lia).
    destruct (rows d !! (Z.to_nat y1 + r)%nat) as [row|] eqn:Hrow.
    2:{ apply lookup_ge_None in Hrow. unfold nrows in Hy2. lia. }
    simpl.
    assert (Hlen : length row = ncols d).
    { by eapply Forall_lookup_1 in Hwf. }
    rewrite slice_list_lookup by lia. split; [|done].
    apply lookup_lt_is_Some. lia.
Qed.

End cut_claims.

(** * Stamping the sentinel *)

Lemma stamp_shape (c : NdArray.ndarray) (b : Spec.box) :
  NdArray.shape (Spec.stamp c b) = NdArray.shape c.
Proof.
  destruct b as [[[x1 x2] y1] y2]. unfold NdArray.shape, NdArray.nrows. simpl.
  by rewrite length_imap.
Qed.

Lemma stamp_all_shape (bs : list Spec.box) (c : NdArray.ndarray) :
  NdArray.shape (Spec.stamp_all c bs) = NdArray.shape c.
Proof.
  revert c. induction bs as [|b bs IH]; intros c; [done|].
  unfold Spec.stamp_all in *. simpl. by rewrite IH, stamp_shape.
Qed.

Lemma stamp_get (c : NdArray.ndarray) (b : Spec.box) (r col : nat) :
  Spec.box_nonneg b →
  NdArray.get (Spec.stamp c b) r col
  = (λ v, if Spec.in_box b r col then Cutter.sentinel else v) <$> NdArray.get c r col.
Proof.
  destruct b as [[[x1 x2] y1] y2]. intros (Hx1 & Hx2 & Hy1 & Hy2).
  unfold NdArray.get, Spec.stamp, NdArray.setslice. simpl.
  rewrite list_lookup_imap.
  destruct (NdArray.rows c !! r) as [row|] eqn:Hrow; [|done]. simpl.
  assert (Hr : (r < NdArray.nrows c)%nat) by (by eapply lookup_lt_Some).
  rewrite in_slice_nonneg by done.
  case_bool_decide as Hy.
  - rewrite list_lookup_imap.
    destruct (row !! col) as [v|] eqn:Hcol; [|done]. simpl.
    assert (Hc : (col < length row)%nat) by (by eapply lookup_lt_Some).
    rewrite in_slice_nonneg by done.
    replace (y1 <=? Z.of_nat r) with true by (symmetry; apply Z.leb_le; lia).
    replace (Z.of_nat r <? y2) with true by (symmetry; apply Z.ltb_lt; lia).
    simpl. case_bool_decide as Hx.
    + replace (x1 <=? Z.of_nat col) with true by (symmetry; apply Z.leb_le; lia).
      replace (Z.of_nat col <? x2) with true by (symmetry; apply Z.ltb_lt; lia).
      done.
    + destruct (x1 <=? Z.of_nat col) eqn:E1, (Z.of_nat col <? x2) eqn:E2; try done.
      apply Z.leb_le in E1. apply Z.ltb_lt in E2. lia.
  - destruct (row !! col) as [v|]; [|done]. simpl.
    destruct (y1 <=? Z.of_nat r) eqn:E1, (Z.of_nat r <? y2) eqn:E2; try done.
    apply Z.leb_le in E1. apply Z.ltb_lt in E2. lia.
Qed.

Lemma stamp_all_get (bs : list Spec.box) : ∀ (c : NdArray.ndarray) (r col : nat),
  Forall Spec.box_nonneg bs →
  NdArray.get (Spec.stamp_all c bs) r col
  = (λ v, if Spec.in_union bs r col then Cutter.sentinel else v) <$> NdArray.get c r col.
Proof.
  induction bs as [|b bs IH]; intros c r col Hnn.
  - simpl. by destruct (NdArray.get c r col).
  - apply Forall_cons in Hnn as [Hb Hbs].
    unfold Spec.stamp_all in *. simpl. rewrite IH, stamp_get by done.
    destruct (NdArray.get c r col) as [v|]; [|done]. simpl.
    unfold Spec.in_union. simpl.
    destruct (Spec.in_box b r col), (existsb (λ b, Spec.in_box b r col) bs); done.
Qed.

(** * The errors of cut_slits *)

Lemma cut_one_error h data uncertainty mask cut_image i row acc e :
  Cutter.cut_one h data uncertainty mask cut_image i row acc = inl e →
  Spec.lookup_error e.
Proof.
  unfold Cutter.cut_one, Cutter.as_int, read_array, Spec.lookup_error.
  destruct row as [[[cx1 cx2] cy1] cy2].
  destruct cx1, cx2, cy1, cy2; simpl; try (intros [= <-]; by auto).
  destruct (arrays h !! data); simpl; [|intros [= <-]; by auto].
  destruct cut_image as [l|]; simpl.
  - destruct (arrays h !! l); simpl; [|intros [= <-]; by auto].
    destruct uncertainty as [u|], mask as [m|]; simpl;
      repeat (case_match; simpl); intros [= <-]; by auto.
  - destruct uncertainty as [u|], mask as [m|]; simpl;
      repeat (case_match; simpl); intros [= <-]; by auto.
Qed.

Lemma cut_loop_error rows : ∀ h data uncertainty mask cut_image i acc e,
  Cutter.cut_loop h data uncertainty mask cut_image i rows acc = inl e →
  Spec.lookup_error e.
Proof.
  induction rows as [|row rows IH]; intros h data uncertainty mask cut_image i acc e;
    simpl; [done|].
  destruct (Cutter.cut_one h data uncertainty mask cut_image i row acc)
    as [e'|[h1 hdus]] eqn:E; simpl.
  - intros [= <-]. by eapply cut_one_error.
  - apply IH.
Qed.

Lemma sec_rows_error t e : Cutter.sec_rows t = inl e → Spec.lookup_error e.
Proof.
  unfold Cutter.sec_rows, Tbl.getitem, Spec.lookup_error.
  repeat (case_match; simpl); intros [= <-]; eauto.
Qed.

(** C2 (amended).  cut_slits raises the validation error exactly when the
    table lacks the column SECX1: a table that has SECX1 and lacks one of
    SECX2, SECY1, SECY2 passes the check (and then fails on the lookup of the
    missing column with another error).  Whenever all four columns are
    present, as integer columns, and the planes are available, it
    succeeds. *)
Theorem validation_error_iff_SECX1_missing (h : store) (data tbl : loc)
    (uncertainty mask : option loc) (return_cut_image : bool) (t : Tbl.Table) :
  tables h !! tbl = Some t →
  (Cutter.cut_slits h data tbl uncertainty mask return_cut_image
     = inl Cutter.not_prepared
   ↔ "SECX1" ∉ Tbl.colnames t) ∧
  (∀ xs1 xs2 ys1 ys2 d,
     Spec.prepared t xs1 xs2 ys1 ys2 → arrays h !! data = Some d →
     Spec.plane_ok h uncertainty → Spec.plane_ok h mask →
     ∃ r, Cutter.cut_slits h data tbl uncertainty mask return_cut_image = inr r).
Proof.
  intros Ht. split.
  - unfold Cutter.cut_slits, read_table. rewrite Ht. simpl.
    case_bool_decide as Hcol; [done|]. split; [|done].
    intros E. exfalso.
    assert (Hne : ¬ Spec.lookup_error Cutter.not_prepared).
    { intros [?|[?|[k ?]]]; discriminate. }
    apply Hne. clear Hne. revert E.
    destruct return_cut_image; unfold read_array; simpl.
    + destruct (arrays h !! data) as [d|]; simpl;
        [|intros [= <-]; right; by left].
      destruct (Cutter.sec_rows t) as [e|rows] eqn:Er; simpl.
      * intros [= <-]. by eapply sec_rows_error.
      * destruct (Cutter.cut_loop _ _ _ _ _ _ rows []) as [e|[h1 hdus]] eqn:El;
          simpl; [|done].
        intros [= <-]. by eapply cut_loop_error.
    + destruct (Cutter.sec_rows t) as [e|rows] eqn:Er; simpl.
      * intros [= <-]. by eapply sec_rows_error.
      * destruct (Cutter.cut_loop _ _ _ _ _ _ rows []) as [e|[h1 hdus]] eqn:El;
          simpl; [|done].
        intros [= <-]. by eapply cut_loop_error.
  - intros xs1 xs2 ys1 ys2 d Hprep Hd Hu Hm.
    destruct (cut_slits_spec h data tbl uncertainty mask return_cut_image
                t d xs1 xs2 ys1 ys2 Ht Hprep Hd Hu Hm) as (h' & ci & E & _).
    eauto.
Qed.

Section cut_image_claims.
Import NdArray Tbl Cutter.
Context (h : store) (data tbl : loc) (uncertainty mask : option loc).
Context (t : Table) (d : ndarray) (xs1 xs2 ys1 ys2 : list Z).
Hypothesis Htbl : tables h !! tbl = Some t.
Hypothesis Hprep : Spec.prepared t xs1 xs2 ys1 ys2.
Hypothesis Hdata : arrays h !! data = Some d.
Hypothesis Hunc : Spec.plane_ok h uncertainty.
Hypothesis Hmask : Spec.plane_ok h mask.

(** C6 (amended).  In every call cut_slits leaves every array of the caller,
    the input image among them, as it was.  With return_cut_image=True the
    annotated image is a new array of the shape of the input; when the box
    coordinates of the table are all non-negative, it holds the sentinel at
    the pixels inside the union of the bounding boxes and equals the input
    everywhere else. *)
Theorem cut_image_differs_only_in_boxes (return_cut_image : bool) :
  ∃ h' cut_image bundle,
    cut_slits h data tbl uncertainty mask return_cut_image
      = inr (h', (cut_image, bundle)) ∧
    (∀ l a, arrays h !! l = Some a → arrays h' !! l = Some a) ∧
    (return_cut_image = true →
     ∃ l c, cut_image = Some l ∧ arrays h !! l = None ∧ arrays h' !! l = Some c ∧
            shape c = shape d ∧
            (Forall Spec.box_nonneg (Spec.boxes_of xs1 xs2 ys1 ys2) →
             ∀ r col v, get d r col = Some v →
               get c r col
               = Some (if Spec.in_union (Spec.boxes_of xs1 xs2 ys1 ys2) r col
                       then sentinel else v))).
Proof.
  destruct (cut_slits_spec h data tbl uncertainty mask return_cut_image
              t d xs1 xs2 ys1 ys2 Htbl Hprep Hdata Hunc Hmask)
    as (h' & ci & E & _ & Hci).
  exists h', ci. eexists. split; [exact E|].
  destruct return_cut_image.
  - destruct Hci as [-> Ha]. split.
    + intros l a Hl. rewrite Ha, lookup_insert_ne; [done|].
      apply fresh_array_ne. by exists a.
    + intros _. eexists _, _. split; [done|]. split.
      { apply not_elem_of_dom, is_fresh. }
      split; [by rewrite Ha, lookup_insert_eq|].
      split; [apply stamp_all_shape|].
      intros Hnn r col v Hv. by rewrite stamp_all_get, Hv.
  - destruct Hci as [-> Ha]. split; [|done].
    intros l a Hl. by rewrite Ha.
Qed.

End cut_image_claims.


Section cut_examples.
Import NdArray Tbl Cutter CutExamples.

Lemma sample_prepared : Spec.prepared sample_table [1; 0] [3; 2] [0; 1] [2; 3].
Proof. repeat split. Qed.

(** Witness of C2 on [sample_store]. *)
Lemma validation_error_iff_SECX1_missing_witness :
  tables sample_store !! table_loc = Some sample_table ∧
  (cut_slits sample_store image_loc table_loc (Some noise_loc) None true
     = inl not_prepared
   ↔ "SECX1" ∉ colnames sample_table) ∧
  (∀ xs1 xs2 ys1 ys2 d,
     Spec.prepared sample_table xs1 xs2 ys1 ys2 →
     arrays sample_store !! image_loc = Some d →
     Spec.plane_ok sample_store (Some noise_loc) → Spec.plane_ok sample_store None →
     ∃ r, cut_slits sample_store image_loc table_loc (Some noise_loc) None true = inr r).
Proof.
  split; [reflexivity|].
  exact (validation_error_iff_SECX1_missing sample_store image_loc table_loc
           (Some noise_loc) None true sample_table eq_refl).
Defined.

(** C2 as stated fails: a table with SECX1 and without SECX2 does not get the
    validation error; the call fails on the lookup of SECX2. *)
Lemma missing_SECX2_is_a_KeyError :
  ("SECX2" ∉ colnames half_prepared_table) ∧
  cut_slits half_prepared_store image_loc table_loc None None false
    = inl (KeyError "SECX2") ∧
  ¬ (cut_slits half_prepared_store image_loc table_loc None None false
       = inl not_prepared).
Proof.
  split; [|split].
  - intros Hin. apply list_elem_of_singleton in Hin. discriminate.
  - reflexivity.
  - discriminate.
Qed.


(** Witness of C3 on the second row of [sample_store]. *)
Lemma cutout_is_image_section_witness :
  ∃ h' cut_image bundle,
    cut_slits sample_store image_loc table_loc (Some noise_loc) None false
      = inr (h', (cut_image, bundle)) ∧
    (∃ hdu, hdu ∈ bundle ∧ hdu_name hdu = Py.label "DATA" 1) ∧
    ∀ hdu, hdu ∈ bundle → hdu_name hdu = Py.label "DATA" 1 →
      shape (hdu_data hdu) = (Z.to_nat (3 - 1), Z.to_nat (2 - 0)) ∧
      ∀ r c, (r < Z.to_nat (3 - 1))%nat → (c < Z.to_nat (2 - 0))%nat →
        is_Some (get sample_image (Z.to_nat 1 + r) (Z.to_nat 0 + c)) ∧
        get (hdu_data hdu) r c = get sample_image (Z.to_nat 1 + r) (Z.to_nat 0 + c).
Proof.
  apply (cutout_is_image_section sample_store image_loc table_loc (Some noise_loc) None
           sample_table sample_image [1; 0] [3; 2] [0; 1] [2; 3]
           eq_refl sample_prepared eq_refl (ex_intro _ sample_noise eq_refl) I
           false 1%nat 0 2 1 3).
  - repeat constructor.
  - reflexivity.
  - lia.
  - simpl. lia.
  - lia.
  - unfold nrows. simpl. lia.
Defined.

(** Witness of C6 on [sample_store]. *)
Lemma cut_image_differs_only_in_boxes_witness :
  ∃ h' cut_image bundle,
    cut_slits sample_store image_loc table_loc (Some noise_loc) None true
      = inr (h', (cut_image, bundle)) ∧
    (∀ l a, arrays sample_store !! l = Some a → arrays h' !! l = Some a) ∧
    (true = true →
     ∃ l c, cut_image = Some l ∧ arrays sample_store !! l = None ∧
            arrays h' !! l = Some c ∧ shape c = shape sample_image ∧
            (Forall Spec.box_nonneg (Spec.boxes_of [1; 0] [3; 2] [0; 1] [2; 3]) →
             ∀ r col v, get sample_image r col = Some v →
               get c r col
               = Some (if Spec.in_union (Spec.boxes_of [1; 0] [3; 2] [0; 1] [2; 3]) r col
                       then sentinel else v))).
Proof.
  exact (cut_image_differs_only_in_boxes sample_store image_loc table_loc
           (Some noise_loc) None sample_table sample_image [1; 0] [3; 2] [0; 1] [2; 3]
           eq_refl sample_prepared eq_refl (ex_intro _ sample_noise eq_refl) I true).
Defined.

(** C6 as stated fails: a box with a negative bound contains no pixel, and
    yet the annotated image differs from the input at a pixel, which lies
    outside the union of the boxes. *)
Lemma negative_bound_stamps_outside_boxes :
  Spec.in_union (Spec.boxes_of [0] [-1] [0] [1]) 0 0 = false ∧
  get sample_image 0 0 = Some 1%Q ∧
  (c ← annotated (cut_slits left_store image_loc table_loc None None true);
   get c 0 0) = Some sentinel.
Proof. repeat split. Qed.

End cut_examples.

(** * Setting the columns of a table *)

Lemma get_replace_column (name n : string) (c : Tbl.column) (t : Tbl.Table) :
  Tbl.get_column n (Tbl.replace_column name c t)
  = if bool_decide (n = name) then Some c else Tbl.get_column n t.
Proof.
  induction t as [|[n0 c0] t IH]; simpl.
  - repeat case_bool_decide; congruence.
  - destruct (decide (n0 = name)) as [->|H0].
    + rewrite bool_decide_true by done. simpl.
      repeat case_bool_decide; congruence.
    + rewrite (bool_decide_false (n0 = name)) by done. simpl. rewrite IH.
      repeat case_bool_decide; congruence.
Qed.

Lemma get_setitem (name n : string) (c : Tbl.column) (t t' : Tbl.Table) :
  Tbl.setitem t name c = inr t' →
  Tbl.get_column n t'
  = if bool_decide (n = name) then Some c else Tbl.get_column n t.
Proof.
  unfold Tbl.setitem. destruct t as [|[n0 c0] t0].
  - intros [= <-]. simpl. repeat case_bool_decide; congruence.
  - case_bool_decide; [|discriminate]. intros [= <-].
    apply (get_replace_column name n c ((n0, c0) :: t0)).
Qed.

(** * The frame check *)

Lemma clip_below_zero_lookup (a : list Z) (i : nat) (v : Z) :
  Mdf.clip_below_zero a !! i = Some v → 0 ≤ v.
Proof.
  unfold Mdf.clip_below_zero. rewrite list_lookup_fmap.
  destruct (a !! i) as [x|]; [|discriminate]. simpl. intros [= <-].
  case_match; lia.
Qed.

Lemma clip_above_lookup (hi : Z) (a : list Z) (i : nat) (v : Z) :
  Mdf.clip_above hi a !! i = Some v → v ≤ hi.
Proof.
  unfold Mdf.clip_above. rewrite list_lookup_fmap.
  destruct (a !! i) as [x|]; [|discriminate]. simpl. intros [= <-].
  case_match; lia.
Qed.

(** * The reference pixel *)

Lemma scatter_add_all (wcp : Q) (x1 : list Z) :
  Forall (λ x, x < 0) x1 →
  Mdf.scatter_add ((λ _, wcp) <$> x1) ((λ v, v <? 0) <$> x1) x1
  = (λ x, (wcp + inject_Z x)%Q) <$> x1.
Proof.
  induction 1 as [|x x1 Hx Hall IH]; [done|]. rewrite !fmap_cons.
  replace (x <? 0) with true by (symmetry; by apply Z.ltb_lt).
  cbn [Mdf.scatter_add]. by rewrite IH.
Qed.

Lemma filter_true_length (x1 : list Z) :
  length (filter (λ b, b = true) ((λ v, v <? 0) <$> x1)) = length x1 →
  Forall (λ x, x < 0) x1.
Proof.
  induction x1 as [|x x1 IH]; [constructor|].
  rewrite fmap_cons, filter_cons. cbn [length]. destruct (x <? 0) eqn:E.
  - rewrite decide_True by done. cbn [length]. intros [= Hlen].
    constructor; [by apply Z.ltb_lt | by apply IH].
  - rewrite decide_False by done. intros Hlen.
    pose proof (length_filter (λ b, b = true) ((λ v : Z, v <? 0) <$> x1)) as Hle.
    rewrite length_fmap in Hle. lia.
Qed.

(** When the update of the reference pixel goes through, every row has the
    central pixel, shifted by x1 where x1 is negative. *)
Lemma masked_iadd_refpix (wcp : Q) (x1 : list Z) (refpix : list Q) :
  Mdf.masked_iadd ((λ _, wcp) <$> x1) ((λ v, v <? 0) <$> x1) x1 = inr refpix →
  refpix = (λ x, if x <? 0 then (wcp + inject_Z x)%Q else wcp) <$> x1.
Proof.
  unfold Mdf.masked_iadd, Mdf.broadcast_to. intros H.
  case_bool_decide as Hk.
  - simpl in H. injection H as <-. symmetry in Hk.
    apply filter_true_length in Hk. rewrite scatter_add_all by done.
    apply list_fmap_ext. intros i x Hx.
    rewrite Forall_forall in Hk.
    apply list_elem_of_lookup_2, Hk in Hx.
    by replace (x <? 0) with true by (symmetry; by apply Z.ltb_lt).
  - case_bool_decide as H1; [|discriminate].
    destruct x1 as [|x [|y x1]]; try discriminate.
    simpl in *. rewrite filter_cons in *. destruct (x <? 0); simpl in *; [done|].
    by injection H as <-.
Qed.

(** * prepare_mdf_table *)


Section prepare_facts.
Import Tbl Mdf.

Lemma prepare_mdf_table_inr (h h' : store) (l l' : loc) (p : params) :
  prepare_mdf_table h l p = inr (h', l') →
  ∃ t mx my sx sy refpix t1 t2 t3 t4 t5,
    tables h !! l = Some t ∧
    l' = fresh (dom (tables h)) ∧
    getitem t "slitpos_mx" = inr mx ∧ getitem t "slitpos_my" = inr my ∧
    getitem t "slitsize_mx" = inr sx ∧ getitem t "slitsize_my" = inr sy ∧
    let b := unclipped_boxes p (col_values mx) (col_values my)
                             (col_values sx) (col_values sy) in
    masked_iadd ((λ _, 1 * wavelength_central_pixel b)%Q <$> bx1 b)
                ((λ v, v <? 0) <$> bx1 b) (bx1 b) = inr refpix ∧
    setitem t "SECX1" (IntCol (clip_below_zero (bx1 b))) = inr t1 ∧
    setitem t1 "SECX2" (IntCol (clip_above (naxis1 p) (bx2 b))) = inr t2 ∧
    setitem t2 "SECY1" (IntCol (clip_below_zero (by1 b))) = inr t3 ∧
    setitem t3 "SECY2" (IntCol (clip_above (naxis2 p) (by2 b))) = inr t4 ∧
    setitem t4 "REFPIX1" (RealCol refpix) = inr t5 ∧
    arrays h' = arrays h ∧
    tables h' = <[l' := t5]> (tables h).
Proof.
  unfold prepare_mdf_table, read_table. intros H.
  destruct (tables h !! l) as [t|] eqn:Ht; [|discriminate]. simpl in H.
  rewrite lookup_insert_eq in H. simpl in H.
  inv_bind H. rename a into mx, Hbind into Hmx.
  inv_bind H. rename a into my, Hbind into Hmy.
  inv_bind H. rename a into sx, Hbind into Hsx.
  inv_bind H. rename a into sy, Hbind into Hsy.
  inv_bind H. rename a into refpix, Hbind into Hrp.
  inv_bind H. rename a into t1, Hbind into H1.
  inv_bind H. rename a into t2, Hbind into H2.
  inv_bind H. rename a into t3, Hbind into H3.
  inv_bind H. rename a into t4, Hbind into H4.
  inv_bind H. rename a into t5, Hbind into H5.
  injection H as <- <-.
  exists t, mx, my, sx, sy, refpix, t1, t2, t3, t4, t5.
  repeat split; try done. simpl. by rewrite insert_insert_eq.
Qed.

(** C4 (amended).  prepare_mdf_table does not touch the caller's table: it
    returns a new table object, a copy of the argument with the columns
    SECX1, SECX2, SECY1, SECY2, REFPIX1 set and every other column as in the
    argument, and every table the caller holds is as it was before. *)
Theorem prepare_returns_new_table (h h' : store) (l l' : loc) (p : params) :
  prepare_mdf_table h l p = inr (h', l') →
  ∃ t t',
    tables h !! l = Some t ∧ tables h' !! l' = Some t' ∧
    l' ≠ l ∧ tables h !! l' = None ∧
    (∀ k, k ≠ l' → tables h' !! k = tables h !! k) ∧
    tables h' !! l = Some t ∧
    (∀ name, name ∈ Spec.derived_columns → is_Some (get_column name t')) ∧
    (∀ name, name ∉ Spec.derived_columns → get_column name t' = get_column name t).
Proof.
  intros H. apply prepare_mdf_table_inr in H
    as (t & mx & my & sx & sy & refpix & t1 & t2 & t3 & t4 & t5
        & Ht & -> & _ & _ & _ & _ & _ & H1 & H2 & H3 & H4 & H5 & _ & Hh').
  assert (Hfresh : tables h !! fresh (dom (tables h)) = None).
  { apply not_elem_of_dom, is_fresh. }
  assert (Hne : fresh (dom (tables h)) ≠ l).
  { intros E. assert (tables h !! l = None) by (rewrite <- E; exact Hfresh).
    congruence. }
  exists t, t5. rewrite Hh'. repeat split; try done.
  - by rewrite lookup_insert_eq.
  - intros k Hk. by rewrite lookup_insert_ne.
  - by rewrite lookup_insert_ne.
  - intros n Hn. unfold Spec.derived_columns in Hn.
    rewrite (get_setitem _ n _ _ _ H5), (get_setitem _ n _ _ _ H4),
      (get_setitem _ n _ _ _ H3), (get_setitem _ n _ _ _ H2),
      (get_setitem _ n _ _ _ H1).
    repeat (apply elem_of_cons in Hn as [-> | Hn]; [simpl; by eexists|]).
    by apply elem_of_nil in Hn.
  - intros n Hn.
    rewrite (get_setitem _ n _ _ _ H5), (get_setitem _ n _ _ _ H4),
      (get_setitem _ n _ _ _ H3), (get_setitem _ n _ _ _ H2),
      (get_setitem _ n _ _ _ H1).
    repeat (case_bool_decide;
            [exfalso; apply Hn; subst n; unfold Spec.derived_columns;
             repeat constructor|]).
    done.
Qed.

End prepare_facts.

Section prepare_examples.
Import Tbl Mdf MdfExamples.

(** What the frame check does establish, and the reference pixel of a call
    that returns: SECX1 and SECY1 are clipped from below only, SECX2 and SECY2
    from above only. *)
Lemma prepare_mdf_table_columns (h h' : store) (l l' : loc) (p : params) :
  prepare_mdf_table h l p = inr (h', l') →
  ∃ t' b x1 x2 y1 y2 refpix,
    tables h' !! l' = Some t' ∧
    get_column "SECX1" t' = Some (IntCol x1) ∧
    get_column "SECX2" t' = Some (IntCol x2) ∧
    get_column "SECY1" t' = Some (IntCol y1) ∧
    get_column "SECY2" t' = Some (IntCol y2) ∧
    get_column "REFPIX1" t' = Some (RealCol refpix) ∧
    (∀ i v, x1 !! i = Some v → 0 ≤ v) ∧
    (∀ i v, x2 !! i = Some v → v ≤ naxis1 p) ∧
    (∀ i v, y1 !! i = Some v → 0 ≤ v) ∧
    (∀ i v, y2 !! i = Some v → v ≤ naxis2 p) ∧
    refpix = (λ x, if x <? 0 then (1 * wavelength_central_pixel b + inject_Z x)%Q
                   else (1 * wavelength_central_pixel b)%Q) <$> bx1 b.
Proof.
  intros H. apply prepare_mdf_table_inr in H
    as (t & mx & my & sx & sy & refpix & t1 & t2 & t3 & t4 & t5
        & Ht & -> & _ & _ & _ & _ & Hrp & H1 & H2 & H3 & H4 & H5 & _ & Hh').
  apply masked_iadd_refpix in Hrp.
  eexists t5, _, _, _, _, _, refpix. rewrite Hh', lookup_insert_eq.
  split; [done|].
  rewrite !(get_setitem _ _ _ _ _ H5), !(get_setitem _ _ _ _ _ H4),
    !(get_setitem _ _ _ _ _ H3), !(get_setitem _ _ _ _ _ H2),
    !(get_setitem _ _ _ _ _ H1). simpl.
  repeat split; try done.
  - apply clip_below_zero_lookup.
  - apply clip_above_lookup.
  - apply clip_below_zero_lookup.
  - apply clip_above_lookup.
Qed.

(** Witness of C4 on a table of one slit at the centre of the mask. *)
Lemma prepare_returns_new_table_witness :
  ∃ h' l',
    prepare_mdf_table (raw_store [(0, 0)%Q]) mask_loc sample_params = inr (h', l') ∧
    ∃ t t',
      tables (raw_store [(0, 0)%Q]) !! mask_loc = Some t ∧ tables h' !! l' = Some t' ∧
      l' ≠ mask_loc ∧ tables (raw_store [(0, 0)%Q]) !! l' = None ∧
      (∀ k, k ≠ l' → tables h' !! k = tables (raw_store [(0, 0)%Q]) !! k) ∧
      tables h' !! mask_loc = Some t ∧
      (∀ name, name ∈ Spec.derived_columns → is_Some (get_column name t')) ∧
      (∀ name, name ∉ Spec.derived_columns → get_column name t' = get_column name t).
Proof.
  destruct (prepare_mdf_table (raw_store [(0, 0)%Q]) mask_loc sample_params)
    as [e|[h' l']] eqn:E; [vm_compute in E; discriminate|].
  exists h', l'. split; [reflexivity|].
  exact (prepare_returns_new_table _ _ _ _ _ E).
Defined.

(** C4 as stated fails: the returned table is another object than the
    argument, and after the call the caller's table is the raw table, without
    the column SECX1. *)
Lemma prepare_leaves_argument_unchanged :
  returned_loc (prepare_mdf_table (raw_store [(0, 0)%Q]) mask_loc sample_params)
    = Some 1%nat ∧
  mask_loc ≠ 1%nat ∧
  callers_table (prepare_mdf_table (raw_store [(0, 0)%Q]) mask_loc sample_params)
    = Some (raw_table [(0, 0)%Q]) ∧
  get_column "SECX1" (raw_table [(0, 0)%Q]) = None ∧
  (t ← returned_table (prepare_mdf_table (raw_store [(0, 0)%Q]) mask_loc sample_params);
   get_column "SECX1" t) = Some (IntCol [45]).
Proof. repeat split; done. Qed.

(** C1 fails on the code: the frame check clips x1 and y1 from below only and
    x2 and y2 from above only.  A slit that maps to the right of the frame
    keeps SECX1 = 125 beyond SECX2 = naxis1 = 100; a slit that maps to the
    left of the frame gets SECX1 = 0 above a negative SECX2 = -25. *)
Theorem box_outside_frame_breaks_invariant :
  naxis1 sample_params = 100 ∧
  (t ← returned_table (prepare_mdf_table (raw_store [(80, 0)%Q]) mask_loc sample_params);
   get_column "SECX1" t) = Some (IntCol [125]) ∧
  (t ← returned_table (prepare_mdf_table (raw_store [(80, 0)%Q]) mask_loc sample_params);
   get_column "SECX2" t) = Some (IntCol [100]) ∧
  (t ← returned_table (prepare_mdf_table (raw_store [(-80, 0)%Q]) mask_loc sample_params);
   get_column "SECX1" t) = Some (IntCol [0]) ∧
  (t ← returned_table (prepare_mdf_table (raw_store [(-80, 0)%Q]) mask_loc sample_params);
   get_column "SECX2" t) = Some (IntCol [-25]).
Proof. repeat split; vm_compute; reflexivity. Qed.


End prepare_examples.

(** * Further properties of find_mask_edges *)

Lemma diff_rows_length (a : list (list Q)) :
  length (Np.diff_rows a) = (length a - 1)%nat.
Proof. unfold Np.diff_rows. rewrite length_zip_with, length_drop. lia. Qed.

Section edge_extras.
Context `{SignalLib}.
Import EdgeFinder.

Lemma gradient_profile_length img cols s1 :
  length (gradient_profile_of img cols s1) = (length img - 1)%nat.
Proof.
  unfold gradient_profile_of.
  by rewrite gaussian_filter_length, !length_fmap, diff_rows_length.
Qed.

Lemma find_mask_edges_profiles img cols s1 s2 it e :
  find_mask_edges img cols s1 s2 it = inr e →
  let g := gradient_profile_of img cols s1 in
  peaks e = SpecX.peaks_of g (sigma_clip g s2 it) ∧
  troughs e = SpecX.troughs_of g (sigma_clip g s2 it).
Proof.
  intros He. apply find_mask_edges_inr in He as (Hp & Ht & _). by split.
Qed.

(** X1.  The masked peak and trough profiles that find_mask_edges returns
    have one sample, and one mask entry, per pair of neighbouring image rows:
    their length is the number of rows of the image less one (zero for an
    image of no rows). *)
Theorem profiles_have_one_sample_per_row_pair img cols s1 s2 it e :
  find_mask_edges img cols s1 s2 it = inr e →
  length (ma_data (peaks e)) = (length img - 1)%nat ∧
  length (ma_mask (peaks e)) = (length img - 1)%nat ∧
  length (ma_data (troughs e)) = (length img - 1)%nat ∧
  length (ma_mask (troughs e)) = (length img - 1)%nat.
Proof.
  intros He. apply find_mask_edges_profiles in He as [-> ->]. simpl.
  rewrite !length_fmap, !length_zip_with, !length_fmap, sigma_clip_length,
    gradient_profile_length.
  repeat split; lia.
Qed.



End edge_extras.

(** * The edge groups cover the candidates *)

Lemma runs_from_join (key : nat → bool) (gs : list (bool * list nat)) : ∀ a b,
  Spec.runs_from key a gs b →
  (a ≤ b)%nat ∧ mjoin (snd <$> gs) = seq a (b - a).
Proof.
  induction gs as [|[k g] rest IH]; intros a b Hruns; simpl in Hruns.
  - subst. split; [lia|]. by rewrite Nat.sub_diag.
  - destruct Hruns as (len & Hlen & -> & _ & _ & Hrest).
    change (mjoin (snd <$> (k, seq a len) :: rest))
      with (seq a len ++ mjoin (snd <$> rest)).
    destruct (IH _ _ Hrest) as [Hle ->]. split; [lia|].
    replace (b - a)%nat with (len + (b - (a + len)))%nat by lia.
    by rewrite seq_app.
Qed.

Lemma join_filter_sublist {A B} (f : A → list B) (P : A → Prop)
    `{∀ x, Decision (P x)} (l : list A) :
  mjoin (f <$> filter P l) `sublist_of` mjoin (f <$> l).
Proof.
  induction l as [|x l IH]; [done|]. rewrite filter_cons.
  destruct (decide (P x)); simpl.
  - by apply sublist_app.
  - by apply sublist_inserts_l.
Qed.

Lemma candidate_in_group (m : EdgeFinder.masked_array) (i : nat) :
  (i < length (EdgeFinder.ma_data m))%nat ∧ Spec.candidate m i = true →
  ∃ g, i ∈ g ∧ g ∈ EdgeFinder.edge_groups m.
Proof.
  intros [Hi Hc].
  pose proof (groupby_seq (EdgeFinder.mask_at (EdgeFinder.ma_mask m)) 0
                          (length (EdgeFinder.ma_data m))) as Hruns.
  destruct (runs_from_join _ _ _ _ Hruns) as [_ Hjoin].
  rewrite Nat.add_0_l, Nat.sub_0_r in Hjoin.
  assert (Hin : i ∈ mjoin (snd <$> Py.groupby
            (EdgeFinder.mask_at (EdgeFinder.ma_mask m))
            (seq 0 (length (EdgeFinder.ma_data m))))).
  { rewrite Hjoin. apply elem_of_seq. lia. }
  apply list_elem_of_join in Hin as (g & Hig & Hg).
  apply list_elem_of_fmap in Hg as ([k g'] & -> & Hg). simpl in Hig.
  exists g'. split; [done|]. unfold EdgeFinder.edge_groups.
  apply list_elem_of_fmap. exists (k, g'). split; [done|].
  apply list_elem_of_filter. split; [|done]. simpl.
  eapply (runs_from_elem _ 0%nat) in Hg as (s & len & -> & _ & _ & _ & Hkey & _);
    [| exact Hruns | by left].
  apply elem_of_seq in Hig. rewrite <- (Hkey i) by lia.
  unfold Spec.candidate in Hc. by apply negb_true_iff in Hc.
Qed.

(** X3.  The edge groups of a masked profile hold exactly its candidate
    rows, each of them once: a row index is in one of the groups exactly when
    it is a row of the profile that is not masked. *)
Theorem edge_groups_cover_candidates (m : EdgeFinder.masked_array) :
  (∀ i, i ∈ mjoin (EdgeFinder.edge_groups m) ↔
        (i < length (EdgeFinder.ma_data m))%nat ∧ Spec.candidate m i = true) ∧
  NoDup (mjoin (EdgeFinder.edge_groups m)).
Proof.
  split.
  - intros i. split.
    + intros Hi. apply list_elem_of_join in Hi as (g & Hig & Hg).
      apply edge_groups_run in Hg as (s & len & -> & _ & Hn & Hc & _).
      apply elem_of_seq in Hig. split; [lia | by apply Hc].
    + intros Hi. apply candidate_in_group in Hi as (g & Hig & Hg).
      apply list_elem_of_join. eauto.
  - pose proof (groupby_seq (EdgeFinder.mask_at (EdgeFinder.ma_mask m)) 0
                            (length (EdgeFinder.ma_data m))) as Hruns.
    destruct (runs_from_join _ _ _ _ Hruns) as [_ Hjoin].
    rewrite Nat.add_0_l, Nat.sub_0_r in Hjoin.
    eapply sublist_NoDup; [|apply join_filter_sublist].
    rewrite Hjoin. apply NoDup_seq.
Qed.

(** * The centroid of a run lies within the run *)

Lemma weighted_sum_bounds (f : nat → Q) (idx : list nat) (lo hi : nat) :
  (∀ i, i ∈ idx → (lo ≤ i ≤ hi)%nat ∧ (0 <= f i)%Q) →
  (Np.of_index lo * Np.Qsum (f <$> idx)
   <= Np.Qsum (zip_with Qmult (Np.of_index <$> idx) (f <$> idx)))%Q ∧
  (Np.Qsum (zip_with Qmult (Np.of_index <$> idx) (f <$> idx))
   <= Np.of_index hi * Np.Qsum (f <$> idx))%Q.
Proof.
  induction idx as [|i idx IH]; intros Hall; simpl.
  - split; rewrite Qmult_0_r; apply Qle_refl.
  - destruct IH as [IH1 IH2].
    { intros j Hj. apply Hall. by right. }
    destruct (Hall i) as [[Hlo Hhi] Hf]; [by left|].
    assert (H1 : (Np.of_index lo * f i <= Np.of_index i * f i)%Q).
    { apply Qmult_le_compat_r; [|done]. unfold Np.of_index.
      rewrite <- Zle_Qle. lia. }
    assert (H2 : (Np.of_index i * f i <= Np.of_index hi * f i)%Q).
    { apply Qmult_le_compat_r; [|done]. unfold Np.of_index.
      rewrite <- Zle_Qle. lia. }
    split.
    + rewrite Qmult_plus_distr_r. by apply Qplus_le_compat.
    + rewrite Qmult_plus_distr_r. by apply Qplus_le_compat.
Qed.

Lemma Qsum_nonneg (w : list Q) :
  Forall (λ x, (0 <= x)%Q) w → (0 <= Np.Qsum w)%Q.
Proof.
  induction 1 as [|x w Hx _ IH]; simpl; [apply Qle_refl|].
  replace 0%Q with (0 + 0)%Q by done. by apply Qplus_le_compat.
Qed.

Lemma centroid_magnitude (prof : list Q) (run : list nat) (c : Q) :
  EdgeFinder.centroid prof run = inr c →
  SpecX.same_sign (Spec.weights_at prof run) →
  (c == Spec.magnitude_centroid prof run)%Q ∧
  (0 < Np.Qsum (Qabs <$> Spec.weights_at prof run))%Q.
Proof.
  intros Hcen Hsign. apply centroid_inr in Hcen as (Hnz & -> & _).
  assert (Habs : Forall (λ x, (0 <= x)%Q) (Qabs <$> Spec.weights_at prof run)).
  { apply Forall_fmap, Forall_forall. intros x _. apply Qabs_nonneg. }
  apply Qsum_nonneg in Habs.
  unfold Spec.magnitude_centroid. cbv zeta. destruct Hsign as [Hpos | Hneg].
  - destruct (Qsum_abs_nonneg (Np.of_index <$> run) _ Hpos) as [E1 E2].
    split; [by rewrite E1, E2|].
    apply Qle_lteq in Habs as [Hlt | Heq]; [done|].
    exfalso. apply Hnz. by rewrite <- E1, <- Heq.
  - destruct (Qsum_abs_neg (Np.of_index <$> run) _ Hneg) as [E1 E2].
    split; [rewrite E1, E2; by field|].
    apply Qle_lteq in Habs as [Hlt | Heq]; [done|].
    exfalso. apply Hnz. rewrite <- Heq in E1.
    rewrite <- (Qopp_involutive (Np.Qsum _)), <- E1. done.
Qed.

Lemma centroid_bounds (prof : list Q) (run : list nat) (c : Q) (lo hi : nat) :
  EdgeFinder.centroid prof run = inr c →
  SpecX.same_sign (Spec.weights_at prof run) →
  (∀ i, i ∈ run → (lo ≤ i ≤ hi)%nat) →
  (Np.of_index lo <= c)%Q ∧ (c <= Np.of_index hi)%Q.
Proof.
  intros Hcen Hsign Hrange.
  destruct (centroid_magnitude _ _ _ Hcen Hsign) as [-> Hpos].
  unfold Spec.magnitude_centroid. cbv zeta.
  unfold Spec.weights_at in *. rewrite <- !list_fmap_compose in *.
  destruct (weighted_sum_bounds (Qabs ∘ (λ i, nth i prof 0%Q)) run lo hi) as [H1 H2].
  { intros i Hi. split; [by apply Hrange | apply Qabs_nonneg]. }
  split.
  - apply Qle_shift_div_l; [done|]. exact H1.
  - apply Qle_shift_div_r; [done|]. exact H2.
Qed.

(** * Edges in increasing position *)





Section edge_position_extras.
Context `{SignalLib}.
Import EdgeFinder.

Lemma peak_run_sign (g : list Q) (cm : list bool) (n s len : nat) :
  Spec.is_maximal_run (Spec.candidate (SpecX.peaks_of g cm)) n s len →
  SpecX.same_sign (Spec.weights_at g (seq s len)).
Proof.
  intros Hrun. left.
  eapply run_weights with (P := λ d, (0 <= d)%Q) in Hrun; [done|].
  intros d Hd. by apply Qle_bool_iff.
Qed.

Lemma trough_run_sign (g : list Q) (cm : list bool) (n s len : nat) :
  Spec.is_maximal_run (Spec.candidate (SpecX.troughs_of g cm)) n s len →
  Forall (λ d, (d < 0)%Q) (Spec.weights_at g (seq s len)).
Proof.
  intros Hrun.
  eapply run_weights with (P := λ d, (d < 0)%Q) in Hrun; [done|].
  intros d Hd. apply Qnot_le_lt. intros Hle.
  apply Qle_bool_iff in Hle. rewrite Hle in Hd. discriminate.
Qed.

(** X4.  Every reported edge position lies within the run of candidate rows
    it comes from: between the first and the last row index of that run. *)
Theorem edge_lies_within_its_run img cols s1 s2 it e :
  find_mask_edges img cols s1 s2 it = inr e →
  let g := gradient_profile_of img cols s1 in
  (∀ c, c ∈ lower_edges e →
     ∃ s len, (2 ≤ len)%nat ∧
              Spec.is_maximal_run (Spec.candidate (peaks e)) (length g) s len ∧
              (Np.of_index s <= c)%Q ∧ (c <= Np.of_index (s + len - 1))%Q) ∧
  (∀ c, c ∈ upper_edges e →
     ∃ s len, (2 ≤ len)%nat ∧
              Spec.is_maximal_run (Spec.candidate (troughs e)) (length g) s len ∧
              (Np.of_index s <= c)%Q ∧ (c <= Np.of_index (s + len - 1))%Q).
Proof.
  intros He g. pose proof (find_mask_edges_profiles _ _ _ _ _ _ He) as [Hp Ht].
  apply find_mask_edges_inr in He as (_ & _ & Hlo & Hup).
  fold g in Hp, Ht, Hlo, Hup. split; intros c Hc.
  - destruct (edge_from_run _ _ _ Hlo c Hc) as (s & len & Hlen & Hrun & Hcen).
    rewrite Hp in Hrun. simpl in Hrun.
    exists s, len. split; [done|]. split; [by rewrite Hp|].
    apply (centroid_bounds g (seq s len) c s (s + len - 1) Hcen).
    + by eapply peak_run_sign.
    + intros i Hi. apply elem_of_seq in Hi. lia.
  - destruct (edge_from_run _ _ _ Hup c Hc) as (s & len & Hlen & Hrun & Hcen).
    rewrite Ht in Hrun. simpl in Hrun.
    exists s, len. split; [done|]. split; [by rewrite Ht|].
    apply (centroid_bounds g (seq s len) c s (s + len - 1) Hcen).
    + right. by eapply trough_run_sign.
    + intros i Hi. apply elem_of_seq in Hi. lia.
Qed.



End edge_position_extras.

(** * When find_mask_edges raises *)

Lemma fancy_index_in_range (prof : list Q) (g : list nat) :
  Forall (λ i, (i < length prof)%nat) g →
  Np.fancy_index prof g = inr (Spec.weights_at prof g).
Proof.
  unfold Np.fancy_index. induction 1 as [|i g Hi _ IH]; [done|]. simpl.
  destruct (lookup_lt_is_Some_2 prof i Hi) as [v Hv]. rewrite Hv. simpl.
  rewrite IH. simpl. unfold ok. do 2 f_equal. by rewrite nth_lookup, Hv.
Qed.

Lemma centroid_in_range (prof : list Q) (g : list nat) :
  Forall (λ i, (i < length prof)%nat) g →
  EdgeFinder.centroid prof g
  = if Qeq_bool (Np.Qsum (Spec.weights_at prof g)) 0 then inl ZeroDivisionError
    else inr (Np.Qsum (zip_with Qmult (Np.of_index <$> g) (Spec.weights_at prof g))
              / Np.Qsum (Spec.weights_at prof g))%Q.
Proof.
  intros Hg. unfold EdgeFinder.centroid. rewrite fancy_index_in_range by done.
  simpl. unfold Np.average. by destruct (Qeq_bool _ 0).
Qed.

Lemma edges_of_groups_inl (prof : list Q) (gs : list (list nat)) (err : exn) :
  EdgeFinder.edges_of_groups prof gs = inl err →
  ∃ g, g ∈ gs ∧ length g ≠ 1%nat ∧ EdgeFinder.centroid prof g = inl err.
Proof.
  induction gs as [|g gs IH]; simpl; [discriminate|].
  case_bool_decide as Hlen.
  - intros Herr. destruct (IH Herr) as (g' & ? & ? & ?). exists g'.
    split; [by right | done].
  - destruct (EdgeFinder.centroid prof g) as [e'|c] eqn:Hc; simpl.
    + intros [= <-]. exists g. split; [by left | done].
    + destruct (EdgeFinder.edges_of_groups prof gs) as [e'|cs]; simpl; [|discriminate].
      intros [= <-]. destruct IH as (g' & ? & ? & ?); [done|]. exists g'.
      split; [by right | done].
Qed.

Lemma Qsum_zero_nonneg (w : list Q) :
  Forall (λ x, (0 <= x)%Q) w → (Np.Qsum w == 0)%Q → Forall (λ x, (x == 0)%Q) w.
Proof.
  induction 1 as [|x w Hx Hw IH]; simpl; [constructor|]. intros Hsum.
  pose proof (Qsum_nonneg w Hw) as Hs.
  assert (Hx0 : (x == 0)%Q).
  { apply Qle_antisym; [|done]. rewrite <- Hsum.
    rewrite <- (Qplus_0_r x) at 1. by apply Qplus_le_r. }
  constructor; [done|]. apply IH. rewrite Hx0, Qplus_0_l in Hsum. done.
Qed.

Lemma Qsum_zero_all (w : list Q) :
  Forall (λ x, (x == 0)%Q) w → (Np.Qsum w == 0)%Q.
Proof.
  induction 1 as [|x w Hx _ IH]; simpl; [done|]. by rewrite Hx, IH.
Qed.

Lemma Qsum_neg (w : list Q) :
  w ≠ [] → Forall (λ x, (x < 0)%Q) w → (Np.Qsum w < 0)%Q.
Proof.
  intros Hne Hw. induction Hw as [|x w Hx Hw IH]; [done|]. simpl.
  destruct w as [|y w].
  - simpl. by rewrite Qplus_0_r.
  - replace 0%Q with (0 + 0)%Q by done. apply Qplus_lt_le_compat; [done|].
    apply Qlt_le_weak, IH. done.
Qed.

Lemma maximal_run_unique (cand : nat → bool) (n s len s' len' : nat) :
  Spec.is_maximal_run cand n s len → Spec.is_maximal_run cand n s' len' →
  (s' ≤ s < s' + len')%nat → s' = s ∧ len' = len.
Proof.
  intros (Hl & Hn & Hc & Hleft & Hright) (Hl' & Hn' & Hc' & Hleft' & Hright') Hin.
  assert (s' = s) as ->.
  { destruct (decide (s' = s)) as [|Hne]; [done|]. exfalso.
    destruct Hleft as [-> | Hf]; [lia|].
    rewrite Hc' in Hf by lia. discriminate. }
  split; [done|].
  destruct (decide (len' = len)) as [|Hne]; [done|]. exfalso.
  destruct (decide (len < len')%nat).
  - destruct Hright as [? | Hf]; [lia|]. rewrite Hc' in Hf by lia. discriminate.
  - destruct Hright' as [? | Hf]; [lia|]. rewrite Hc in Hf by lia. discriminate.
Qed.

Lemma maximal_run_is_group (m : EdgeFinder.masked_array) (s len : nat) :
  Spec.is_maximal_run (Spec.candidate m) (length (EdgeFinder.ma_data m)) s len →
  seq s len ∈ EdgeFinder.edge_groups m.
Proof.
  intros Hrun. pose proof Hrun as (Hl & Hn & Hc & _).
  destruct (candidate_in_group m s) as (g & Hsg & Hg).
  { split; [lia | apply Hc; lia]. }
  pose proof Hg as Hg'.
  apply edge_groups_run in Hg' as (s' & len' & -> & Hrun').
  apply elem_of_seq in Hsg.
  destruct (maximal_run_unique _ _ _ _ _ _ Hrun Hrun') as [-> ->]; [lia | done].
Qed.

Lemma loop_failure (g : list Q) (m : EdgeFinder.masked_array) (err : exn) :
  EdgeFinder.edges_of_groups g (EdgeFinder.edge_groups m) = inl err →
  length (EdgeFinder.ma_data m) = length g →
  err = ZeroDivisionError ∧
  ∃ s len, (2 ≤ len)%nat ∧
           Spec.is_maximal_run (Spec.candidate m) (length g) s len ∧
           (Np.Qsum (Spec.weights_at g (seq s len)) == 0)%Q.
Proof.
  intros Herr Hlen. apply edges_of_groups_inl in Herr as (run & Hrun & Hne & Hcen).
  apply edge_groups_run in Hrun as (s & len & -> & Hmax).
  rewrite Hlen in Hmax. pose proof Hmax as (Hl & Hn & _).
  rewrite centroid_in_range in Hcen.
  2:{ apply Forall_forall. intros i Hi. apply elem_of_seq in Hi. lia. }
  destruct (Qeq_bool _ 0) eqn:Hz; [|discriminate]. injection Hcen as <-.
  split; [done|]. exists s, len. rewrite length_seq in Hne.
  split; [lia|]. split; [done|]. by apply Qeq_bool_iff.
Qed.

Lemma loop_fails_on_zero_run (g : list Q) (m : EdgeFinder.masked_array) (s len : nat) :
  length (EdgeFinder.ma_data m) = length g →
  (2 ≤ len)%nat →
  Spec.is_maximal_run (Spec.candidate m) (length g) s len →
  (Np.Qsum (Spec.weights_at g (seq s len)) == 0)%Q →
  ∃ err, EdgeFinder.edges_of_groups g (EdgeFinder.edge_groups m) = inl err.
Proof.
  intros Hlen Hl Hmax Hz.
  destruct (EdgeFinder.edges_of_groups g (EdgeFinder.edge_groups m)) as [err|es] eqn:E;
    [by exists err|]. exfalso.
  apply edges_of_groups_inr in E.
  assert (Hin : seq s len ∈ filter (λ g0 : list nat, length g0 ≠ 1%nat)
                                   (EdgeFinder.edge_groups m)).
  { apply list_elem_of_filter. rewrite length_seq. split; [lia|].
    apply maximal_run_is_group. by rewrite Hlen. }
  apply list_elem_of_lookup in Hin as [k Hk].
  destruct (Forall2_lookup_r _ _ _ _ _ E Hk) as (c & _ & Hc).
  rewrite centroid_in_range in Hc.
  2:{ apply Forall_forall. intros i Hi. apply elem_of_seq in Hi.
      destruct Hmax as (_ & ? & _). lia. }
  apply Qeq_bool_iff in Hz. rewrite Hz in Hc. discriminate.
Qed.

Section edge_error_extras.
Context `{SignalLib}.
Import EdgeFinder.

(** X6.  find_mask_edges raises nothing but ZeroDivisionError, and it raises
    exactly when some run of two or more peak candidates has a smoothed
    gradient of zero at every row of the run (the weights of its centroid
    then sum to zero); a run of trough candidates never makes it raise. *)
Theorem find_mask_edges_raises_iff img cols s1 s2 it :
  let g := gradient_profile_of img cols s1 in
  let clipped := sigma_clip g s2 it in
  (∀ err, find_mask_edges img cols s1 s2 it = inl err → err = ZeroDivisionError) ∧
  ((∃ err, find_mask_edges img cols s1 s2 it = inl err) ↔
   ∃ s len, (2 ≤ len)%nat ∧
            Spec.is_maximal_run (Spec.candidate (SpecX.peaks_of g clipped))
                                (length g) s len ∧
            ∀ i, (s ≤ i < s + len)%nat → (nth i g 0 == 0)%Q).
Proof.
  intros g clipped.
  assert (Hfme : find_mask_edges img cols s1 s2 it
                 = (lower_edges ← edges_of_groups g (edge_groups (SpecX.peaks_of g clipped));
                    upper_edges ← edges_of_groups g (edge_groups (SpecX.troughs_of g clipped));
                    ok (Edges (SpecX.peaks_of g clipped) (SpecX.troughs_of g clipped)
                              lower_edges upper_edges))) by done.
  rewrite Hfme. clear Hfme.
  assert (Hup : ∀ err, edges_of_groups g (edge_groups (SpecX.troughs_of g clipped))
                       ≠ inl err).
  { intros err Herr. apply loop_failure in Herr as (_ & s & len & Hl & Hmax & Hz);
      [|done].
    pose proof (trough_run_sign _ _ _ _ _ Hmax) as Hneg.
    apply Qsum_neg in Hneg.
    - rewrite Hz in Hneg. by apply Qlt_irrefl in Hneg.
    - destruct len; [lia | done]. }
  assert (Hzero : ∀ s len,
            Spec.is_maximal_run (Spec.candidate (SpecX.peaks_of g clipped)) (length g) s len →
            ((Np.Qsum (Spec.weights_at g (seq s len)) == 0)%Q ↔
             ∀ i, (s ≤ i < s + len)%nat → (nth i g 0 == 0)%Q)).
  { intros s len Hmax. split.
    - intros Hz i Hi.
      pose proof (run_weights g clipped (Qle_bool 0) (λ d, (0 <= d)%Q) _ s len
                    (λ d Hd, proj1 (Qle_bool_iff 0 d) Hd) Hmax) as Hpos.
      apply Qsum_zero_nonneg in Hpos; [|done].
      rewrite Forall_forall in Hpos. apply Hpos.
      apply list_elem_of_fmap. exists i. split; [done|]. apply elem_of_seq. lia.
    - intros Hall. apply Qsum_zero_all, Forall_fmap, Forall_forall.
      intros i Hi. apply elem_of_seq in Hi. by apply Hall. }
  destruct (edges_of_groups g (edge_groups (SpecX.peaks_of g clipped)))
    as [err|lo] eqn:Elo; simpl.
  - apply loop_failure in Elo as (-> & s & len & Hl & Hmax & Hz); [|done].
    split; [by intros err [= <-]|]. split; [|by eauto].
    intros _. exists s, len. split; [done|]. split; [done|]. by apply Hzero.
  - destruct (edges_of_groups g (edge_groups (SpecX.troughs_of g clipped)))
      as [err|up] eqn:Eup; simpl; [by destruct (Hup err)|].
    split; [discriminate|]. split; [by intros [err ?]|].
    intros (s & len & Hl & Hmax & Hall). exfalso.
    destruct (loop_fails_on_zero_run g (SpecX.peaks_of g clipped) s len)
      as [err Herr]; try done.
    + by apply Hzero.
    + congruence.
Qed.

End edge_error_extras.

(** * Further properties of cut_slits *)

Lemma cut_one_frame h data uncertainty mask cut_image i row acc h' hdus :
  Cutter.cut_one h data uncertainty mask cut_image i row acc = inr (h', hdus) →
  tables h' = tables h ∧
  ∀ l, Some l ≠ cut_image → arrays h' !! l = arrays h !! l.
Proof.
  unfold Cutter.cut_one. destruct row as [[[cx1 cx2] cy1] cy2]. intros H.
  do 5 (inv_bind H; clear Hbind). cbv zeta in H.
  inv_bind H. rename a4 into hs, Hbind into Hstamp.
  do 2 (inv_bind H; clear Hbind).
  unfold ok in H. injection H as <- <-.
  destruct cut_image as [lc|].
  - inv_bind Hstamp. unfold ok in Hstamp. injection Hstamp as <-.
    split; [done|]. intros l Hl. simpl. rewrite lookup_insert_ne; [done|congruence].
  - unfold ok in Hstamp. injection Hstamp as <-. done.
Qed.

Lemma cut_loop_frame rows : ∀ h data uncertainty mask cut_image i acc h' hdus,
  Cutter.cut_loop h data uncertainty mask cut_image i rows acc = inr (h', hdus) →
  tables h' = tables h ∧
  ∀ l, Some l ≠ cut_image → arrays h' !! l = arrays h !! l.
Proof.
  induction rows as [|row rows IH]; intros h data uncertainty mask cut_image i acc h' hdus;
    simpl.
  - intros [= <- <-]. done.
  - intros H. inv_bind H. destruct a as [h1 hdus1].
    apply cut_one_frame in Hbind as [Ht1 Ha1].
    apply IH in H as [Ht2 Ha2]. split; [congruence|].
    intros l Hl. by rewrite Ha2, Ha1.
Qed.

(** X7.  A call of cut_slits that returns has changed no table and no array
    that existed before the call.  With return_cut_image=False it creates
    nothing either: the store is the one it was given.  With
    return_cut_image=True the annotated image is an array that did not exist
    before. *)
Theorem cut_slits_leaves_the_inputs (h h' : store) (data tbl : loc)
    (uncertainty mask : option loc) (return_cut_image : bool)
    (cut_image : option loc) (bundle : list Cutter.ImageHDU) :
  Cutter.cut_slits h data tbl uncertainty mask return_cut_image
    = inr (h', (cut_image, bundle)) →
  tables h' = tables h ∧
  (∀ l a, arrays h !! l = Some a → arrays h' !! l = Some a) ∧
  (return_cut_image = false → cut_image = None ∧ arrays h' = arrays h) ∧
  (return_cut_image = true → ∃ l, cut_image = Some l ∧ arrays h !! l = None).
Proof.
  unfold Cutter.cut_slits. intros H. inv_bind H. rename a into t.
  case_bool_decide; [discriminate|].
  inv_bind H. destruct a as [h0 ci]. inv_bind H. rename a into rows.
  inv_bind H. destruct a as [h1 hdus]. unfold ok in H. injection H as <- <- <-.
  apply cut_loop_frame in Hbind2 as [Ht Ha].
  destruct return_cut_image.
  - inv_bind Hbind0. rename a into d. unfold alloc_array in Hbind0.
    unfold ok in Hbind0. injection Hbind0 as <- <-.
    assert (Hfresh : arrays h !! fresh (dom (arrays h)) = None).
    { apply not_elem_of_dom, is_fresh. }
    split; [done|]. split; [|split; [done|]].
    + intros l a Hl. rewrite Ha.
      * simpl. rewrite lookup_insert_ne; [done|]. apply fresh_array_ne. by exists a.
      * intros [= E]. apply (fresh_array_ne h l); [by exists a | done].
    + intros _. eauto.
  - unfold ok in Hbind0. injection Hbind0 as <- <-.
    split; [done|]. split; [|split; [|done]].
    + intros l a Hl. by rewrite Ha.
    + intros _. split; [done|]. apply map_eq. intros l. by apply Ha.
Qed.

(** * Shapes of the cut-outs *)

Lemma norm_index_le (n : nat) (i : Z) : (Py.norm_index n i ≤ n)%nat.
Proof. unfold Py.norm_index. case_match; lia. Qed.

Lemma slice_list_len {A} (l : list A) (lo hi : Z) :
  length (Py.slice_list lo hi l) = Py.slice_len (length l) lo hi.
Proof.
  unfold Py.slice_list, Py.slice_len. rewrite length_take, length_drop.
  pose proof (norm_index_le (length l) hi). lia.
Qed.

Lemma cut_shape (a : NdArray.ndarray) (b : Spec.box) :
  NdArray.shape (SpecX.cut a b)
  = (let '(x1, x2, y1, y2) := b in
     (Py.slice_len (NdArray.nrows a) y1 y2, Py.slice_len (NdArray.ncols a) x1 x2)).
Proof.
  destruct b as [[[x1 x2] y1] y2]. unfold NdArray.shape, NdArray.nrows. simpl.
  by rewrite length_fmap, slice_list_len.
Qed.

Lemma bundle_named d ua ma bs hdu i :
  hdu ∈ Spec.bundle_from d ua ma 0 bs →
  (Cutter.hdu_name hdu = Py.label "DATA" i →
   ∃ b, bs !! i = Some b ∧ Cutter.hdu_data hdu = SpecX.cut d b) ∧
  (Cutter.hdu_name hdu = Py.label "UNCERTAINTY" i →
   ∃ b u a, bs !! i = Some b ∧ ua = Some (u, a) ∧ Cutter.hdu_data hdu = SpecX.cut a b) ∧
  (Cutter.hdu_name hdu = Py.label "MASK" i →
   ∃ b m a, bs !! i = Some b ∧ ma = Some (m, a) ∧ Cutter.hdu_data hdu = SpecX.cut a b).
Proof.
  intros Hin. apply bundle_from_elem in Hin as (j & [[[x1 x2] y1] y2] & Hj & Hin).
  simpl in Hin. apply elem_of_cons in Hin as [-> | Hin]; simpl.
  - split; [|split; discriminate].
    intros ->%label_inj. eauto.
  - apply elem_of_app in Hin as [Hin | Hin].
    + destruct ua as [[u a]|]; [|by apply elem_of_nil in Hin].
      apply list_elem_of_singleton in Hin as ->. simpl.
      split; [discriminate|]. split; [|discriminate].
      intros ->%label_inj. eauto 10.
    + destruct ma as [[m a]|]; [|by apply elem_of_nil in Hin].
      apply list_elem_of_singleton in Hin as ->. simpl.
      split; [discriminate|]. split; [discriminate|].
      intros ->%label_inj. eauto 10.
Qed.

Lemma slice_list_lookup_nonneg {A} (l : list A) (lo hi : Z) (k : nat) :
  0 ≤ lo → 0 ≤ hi → (k < Py.slice_len (length l) lo hi)%nat →
  Py.slice_list lo hi l !! k = l !! (Z.to_nat lo + k)%nat ∧
  (Z.to_nat lo + k < length l)%nat.
Proof.
  intros Hlo Hhi. unfold Py.slice_list, Py.slice_len.
  rewrite !norm_index_nonneg by done. intros Hk.
  rewrite lookup_take_lt by lia. rewrite lookup_drop.
  split; [f_equal|]; lia.
Qed.

Section cut_shape_extras.
Import NdArray Tbl Cutter.
Context (h : store) (data tbl : loc) (uncertainty mask : option loc).
Context (t : Table) (d : ndarray) (xs1 xs2 ys1 ys2 : list Z).
Hypothesis Htbl : tables h !! tbl = Some t.
Hypothesis Hprep : Spec.prepared t xs1 xs2 ys1 ys2.
Hypothesis Hdata : arrays h !! data = Some d.
Hypothesis Hunc : Spec.plane_ok h uncertainty.
Hypothesis Hmask : Spec.plane_ok h mask.

(** X8.  When the uncertainty and mask planes have the shape of the image,
    the uncertainty and the mask sub-image of a row have the shape of the
    data sub-image of that row, whatever the bounds of its box are. *)
Theorem plane_cutouts_have_the_shape_of_the_data_cutout (return_cut_image : bool) :
  (∀ l a, (uncertainty = Some l ∨ mask = Some l) → arrays h !! l = Some a →
          shape a = shape d) →
  ∃ h' cut_image bundle,
    cut_slits h data tbl uncertainty mask return_cut_image
      = inr (h', (cut_image, bundle)) ∧
    ∀ i hd hp, hd ∈ bundle → hp ∈ bundle →
      hdu_name hd = Py.label "DATA" i →
      (hdu_name hp = Py.label "UNCERTAINTY" i ∨ hdu_name hp = Py.label "MASK" i) →
      shape (hdu_data hp) = shape (hdu_data hd).
Proof.
  intros Hshape.
  destruct (cut_slits_spec h data tbl uncertainty mask return_cut_image
              t d xs1 xs2 ys1 ys2 Htbl Hprep Hdata Hunc Hmask)
    as (h' & ci & E & _).
  exists h', ci. eexists. split; [exact E|].
  intros i hd hp Hd Hp Hnd Hnp.
  apply (bundle_named _ _ _ _ _ i) in Hd as (Hd & _ & _).
  destruct (Hd Hnd) as (b & Hb & ->).
  change (Spec.boxes_of xs1 xs2 ys1 ys2 !! i = Some b) in Hb.
  apply (bundle_named _ _ _ _ _ i) in Hp as (_ & Hpu & Hpm).
  assert (Hplane : ∃ l a, (uncertainty = Some l ∨ mask = Some l) ∧
                          arrays h !! l = Some a ∧ hdu_data hp = SpecX.cut a b).
  { destruct Hnp as [Hn | Hn].
    - destruct (Hpu Hn) as (b' & u & a & Hb' & Hua & ->).
      change (Spec.boxes_of xs1 xs2 ys1 ys2 !! i = Some b') in Hb'.
      rewrite Hb in Hb'. injection Hb' as <-.
      exists u, a. unfold Spec.plane in Hua.
      destruct uncertainty as [u'|]; [|done]. simpl in Hua.
      destruct (arrays h !! u') as [a'|] eqn:Ha; [|done]. injection Hua as <- <-.
      eauto.
    - destruct (Hpm Hn) as (b' & m & a & Hb' & Hma & ->).
      change (Spec.boxes_of xs1 xs2 ys1 ys2 !! i = Some b') in Hb'.
      rewrite Hb in Hb'. injection Hb' as <-.
      exists m, a. unfold Spec.plane in Hma.
      destruct mask as [m'|]; [|done]. simpl in Hma.
      destruct (arrays h !! m') as [a'|] eqn:Ha; [|done]. injection Hma as <- <-.
      eauto. }
  destruct Hplane as (l & a & Hl & Ha & ->).
  specialize (Hshape l a Hl Ha). rewrite !cut_shape.
  destruct b as [[[x1 x2] y1] y2]. unfold shape in Hshape.
  injection Hshape as -> ->. done.
Qed.

(** X9.  A box with non-negative bounds is cut to the frame: the data
    sub-image of the row has min(y2, height) - min(y1, height) rows and
    min(x2, width) - min(x1, width) columns (none when the box is inverted or
    lies beyond the frame; no error is raised), and its sample (r, c) is the
    sample (y1 + r, x1 + c) of the image. *)
Theorem data_cutout_is_the_box_within_the_frame (return_cut_image : bool) (i : nat)
    (x1 x2 y1 y2 : Z) :
  NdArray.wf d →
  Spec.boxes_of xs1 xs2 ys1 ys2 !! i = Some (x1, x2, y1, y2) →
  0 ≤ x1 → 0 ≤ x2 → 0 ≤ y1 → 0 ≤ y2 →
  ∃ h' cut_image bundle,
    cut_slits h data tbl uncertainty mask return_cut_image
      = inr (h', (cut_image, bundle)) ∧
    ∀ hdu, hdu ∈ bundle → hdu_name hdu = Py.label "DATA" i →
      nrows (hdu_data hdu)
      = (Z.to_nat y2 `min` nrows d - Z.to_nat y1 `min` nrows d)%nat ∧
      ncols (hdu_data hdu)
      = (Z.to_nat x2 `min` ncols d - Z.to_nat x1 `min` ncols d)%nat ∧
      ∀ r c, (r < nrows (hdu_data hdu))%nat → (c < ncols (hdu_data hdu))%nat →
        is_Some (get d (Z.to_nat y1 + r) (Z.to_nat x1 + c)) ∧
        get (hdu_data hdu) r c = get d (Z.to_nat y1 + r) (Z.to_nat x1 + c).
Proof.
  intros Hwf Hi Hx1 Hx2 Hy1 Hy2.
  destruct (cut_slits_spec h data tbl uncertainty mask return_cut_image
              t d xs1 xs2 ys1 ys2 Htbl Hprep Hdata Hunc Hmask)
    as (h' & ci & E & _).
  exists h', ci. eexists. split; [exact E|].
  intros hdu Hin Hname.
  apply (bundle_named _ _ _ _ _ i) in Hin as (Hd & _ & _).
  destruct (Hd Hname) as (b & Hb & ->).
  pose proof (eq_trans (eq_sym Hb) Hi) as Hbb. injection Hbb as ->. clear Hb.
  assert (Hr : nrows (SpecX.cut d (x1, x2, y1, y2)) = Py.slice_len (nrows d) y1 y2).
  { unfold nrows. simpl. by rewrite length_fmap, slice_list_len. }
  assert (Hc : ncols (SpecX.cut d (x1, x2, y1, y2)) = Py.slice_len (ncols d) x1 x2)
    by done.
  rewrite Hr, Hc. unfold Py.slice_len.
  rewrite !norm_index_nonneg by done.
  split; [done|]. split; [done|].
  intros r c Hrr Hcc. unfold get. simpl.
  rewrite list_lookup_fmap.
  destruct (slice_list_lookup_nonneg (rows d) y1 y2 r Hy1 Hy2) as [-> Hlt].
  { unfold Py.slice_len. rewrite !norm_index_nonneg by done. exact Hrr. }
  destruct (lookup_lt_is_Some_2 _ _ Hlt) as [row Hrow]. rewrite Hrow. simpl.
  assert (Hlen : length row = ncols d) by (by eapply Forall_lookup_1 in Hwf).
  destruct (slice_list_lookup_nonneg row x1 x2 c Hx1 Hx2) as [-> Hlt'].
  { unfold Py.slice_len. rewrite !norm_index_nonneg, Hlen by done. exact Hcc. }
  split; [|done]. by apply lookup_lt_is_Some_2.
Qed.

End cut_shape_extras.

(** * Further properties of prepare_mdf_table *)

Section prepare_extras.
Import Tbl Mdf.

Lemma boxes_of_table_getitem (p : params) (t : Table) (mx my sx sy : column) :
  getitem t "slitpos_mx" = inr mx → getitem t "slitpos_my" = inr my →
  getitem t "slitsize_mx" = inr sx → getitem t "slitsize_my" = inr sy →
  SpecX.boxes_of_table p t
  = Some (unclipped_boxes p (col_values mx) (col_values my)
                          (col_values sx) (col_values sy)).
Proof.
  unfold getitem, SpecX.boxes_of_table. intros H1 H2 H3 H4.
  destruct (get_column "slitpos_mx" t); [|discriminate]. injection H1 as ->.
  destruct (get_column "slitpos_my" t); [|discriminate]. injection H2 as ->.
  destruct (get_column "slitsize_mx" t); [|discriminate]. injection H3 as ->.
  destruct (get_column "slitsize_my" t); [|discriminate]. injection H4 as ->.
  done.
Qed.

(** What a call that returns has stored. *)
Lemma prepare_mdf_table_result (h h' : store) (l l' : loc) (p : params) :
  prepare_mdf_table h l p = inr (h', l') →
  ∃ t b t',
    tables h !! l = Some t ∧ SpecX.boxes_of_table p t = Some b ∧
    tables h' !! l' = Some t' ∧ arrays h' = arrays h ∧
    get_column "SECX1" t' = Some (IntCol (clip_below_zero (bx1 b))) ∧
    get_column "SECX2" t' = Some (IntCol (clip_above (naxis1 p) (bx2 b))) ∧
    get_column "SECY1" t' = Some (IntCol (clip_below_zero (by1 b))) ∧
    get_column "SECY2" t' = Some (IntCol (clip_above (naxis2 p) (by2 b))) ∧
    get_column "REFPIX1" t'
    = Some (RealCol ((λ x, if x <? 0
                           then (1 * wavelength_central_pixel b + inject_Z x)%Q
                           else (1 * wavelength_central_pixel b)%Q) <$> bx1 b)).
Proof.
  intros H. apply prepare_mdf_table_inr in H
    as (t & mx & my & sx & sy & refpix & t1 & t2 & t3 & t4 & t5
        & Ht & -> & Hmx & Hmy & Hsx & Hsy & Hrp & H1 & H2 & H3 & H4 & H5 & Ha & Hh').
  apply masked_iadd_refpix in Hrp. subst refpix.
  eexists t, _, t5. rewrite Hh', lookup_insert_eq.
  split; [done|]. split; [by apply boxes_of_table_getitem|].
  split; [done|]. split; [done|].
  rewrite !(get_setitem _ _ _ _ _ H5), !(get_setitem _ _ _ _ _ H4),
    !(get_setitem _ _ _ _ _ H3), !(get_setitem _ _ _ _ _ H2),
    !(get_setitem _ _ _ _ _ H1). simpl. done.
Qed.



(** X10.  A table that lacks one of the raw columns slitpos_mx, slitpos_my,
    slitsize_mx, slitsize_my makes prepare_mdf_table raise the lookup error
    of the first of them that is missing. *)
Theorem prepare_raises_on_missing_raw_column (h : store) (l : loc) (p : params)
    (t : Table) (pre post : list string) (name : string) :
  tables h !! l = Some t →
  SpecX.raw_columns = pre ++ name :: post →
  (∀ n, n ∈ pre → is_Some (get_column n t)) →
  get_column name t = None →
  prepare_mdf_table h l p = inl (KeyError name).
Proof.
  intros Ht Hsplit Hpre Hname. unfold prepare_mdf_table, read_table.
  rewrite Ht. simpl. rewrite lookup_insert_eq. simpl. unfold getitem.
  unfold SpecX.raw_columns in Hsplit.
  destruct pre as [|n1 pre]; simpl in Hsplit.
  { injection Hsplit as <- _. by rewrite Hname. }
  injection Hsplit as <- Hsplit.
  destruct (Hpre "slitpos_mx") as [c1 ->]; [by left|]. simpl.
  destruct pre as [|n2 pre]; simpl in Hsplit.
  { injection Hsplit as <- _. by rewrite Hname. }
  injection Hsplit as <- Hsplit.
  destruct (Hpre "slitpos_my") as [c2 ->]; [by right; left|]. simpl.
  destruct pre as [|n3 pre]; simpl in Hsplit.
  { injection Hsplit as <- _. by rewrite Hname. }
  injection Hsplit as <- Hsplit.
  destruct (Hpre "slitsize_mx") as [c3 ->]; [by right; right; left|]. simpl.
  destruct pre as [|n4 pre]; simpl in Hsplit.
  { injection Hsplit as <- _. by rewrite Hname. }
  injection Hsplit as <- Hsplit. by destruct pre.
Qed.






End prepare_extras.

(** * When prepare_mdf_table returns *)

Section prepare_total_extras.
Import Tbl Mdf.




Lemma replace_column_wf_n (n : nat) (t : Table) (name : string) (c : column) :
  SpecX.wf_n n t → col_length c = n → SpecX.wf_n n (replace_column name c t).
Proof.
  unfold SpecX.wf_n. intros Ht Hc. induction Ht as [|[n0 c0] t Hc0 Ht IH]; simpl.
  - by repeat constructor.
  - case_bool_decide; by constructor.
Qed.

Lemma replace_column_nrows (t : Table) (name : string) (c : column) :
  t ≠ [] → col_length c = SpecX.nrows_of t →
  SpecX.nrows_of (replace_column name c t) = SpecX.nrows_of t ∧
  replace_column name c t ≠ [].
Proof.
  destruct t as [|[n0 c0] t]; [done|]. intros _ Hc. simpl.
  by case_bool_decide.
Qed.

Lemma setitem_inr_nrows (t t' : Table) (name : string) (c : column) :
  t ≠ [] → setitem t name c = inr t' →
  col_length c = SpecX.nrows_of t ∧ SpecX.nrows_of t' = SpecX.nrows_of t ∧ t' ≠ [].
Proof.
  intros Hne. unfold setitem. destruct t as [|[n0 c0] t0] eqn:Et; [done|].
  case_bool_decide as Hlen; [|discriminate]. intros [= <-].
  split; [done|]. by apply (replace_column_nrows ((n0, c0) :: t0)).
Qed.

Lemma setitem_ok (t : Table) (name : string) (c : column) :
  t ≠ [] → col_length c = SpecX.nrows_of t →
  setitem t name c = inr (replace_column name c t).
Proof.
  intros Hne Hc. unfold setitem. destruct t as [|[n0 c0] t0]; [done|].
  simpl in Hc. by rewrite bool_decide_true.
Qed.

Lemma replace_column_same (t : Table) (name : string) (c : column) :
  get_column name t = Some c → replace_column name c t = t.
Proof.
  induction t as [|[n0 c0] t IH]; simpl; [done|].
  case_bool_decide; [by intros [= ->] | intros Hc; by rewrite IH].
Qed.

Lemma get_column_nonempty (t : Table) (name : string) (c : column) :
  get_column name t = Some c → t ≠ [].
Proof. by destruct t. Qed.


(** The converse of [prepare_mdf_table_inr]: the steps that make a call
    return. *)
Lemma prepare_mdf_table_ok (h : store) (l : loc) (p : params) (t : Table)
    (mx my sx sy : column) (refpix : list Q) (t1 t2 t3 t4 t5 : Table) :
  tables h !! l = Some t →
  getitem t "slitpos_mx" = inr mx → getitem t "slitpos_my" = inr my →
  getitem t "slitsize_mx" = inr sx → getitem t "slitsize_my" = inr sy →
  let b := unclipped_boxes p (col_values mx) (col_values my)
                           (col_values sx) (col_values sy) in
  masked_iadd ((λ _, 1 * wavelength_central_pixel b)%Q <$> bx1 b)
              ((λ v, v <? 0) <$> bx1 b) (bx1 b) = inr refpix →
  setitem t "SECX1" (IntCol (clip_below_zero (bx1 b))) = inr t1 →
  setitem t1 "SECX2" (IntCol (clip_above (naxis1 p) (bx2 b))) = inr t2 →
  setitem t2 "SECY1" (IntCol (clip_below_zero (by1 b))) = inr t3 →
  setitem t3 "SECY2" (IntCol (clip_above (naxis2 p) (by2 b))) = inr t4 →
  setitem t4 "REFPIX1" (RealCol refpix) = inr t5 →
  ∃ h', prepare_mdf_table h l p = inr (h', fresh (dom (tables h))) ∧
        arrays h' = arrays h ∧
        tables h' = <[fresh (dom (tables h)) := t5]> (tables h).
Proof.
  intros Ht Hmx Hmy Hsx Hsy b Hrp H1 H2 H3 H4 H5.
  unfold prepare_mdf_table, read_table. rewrite Ht. simpl.
  rewrite lookup_insert_eq. simpl. rewrite Hmx, Hmy, Hsx, Hsy. simpl.
  fold b. rewrite Hrp. simpl. rewrite H1. simpl. rewrite H2. simpl.
  rewrite H3. simpl. rewrite H4. simpl. rewrite H5. simpl.
  eexists. split; [reflexivity|]. split; [done|]. simpl.
  by rewrite insert_insert_eq.
Qed.



End prepare_total_extras.

(** * prepare_mdf_table followed by cut_slits, and prepared twice *)

Section prepare_compose_extras.
Import Tbl Mdf.

(** The column lengths a returning call has checked. *)
Lemma prepare_mdf_table_lengths (h h' : store) (l l' : loc) (p : params) :
  prepare_mdf_table h l p = inr (h', l') →
  ∃ t b t',
    tables h !! l = Some t ∧ SpecX.boxes_of_table p t = Some b ∧
    tables h' !! l' = Some t' ∧ t ≠ [] ∧
    SpecX.nrows_of t' = SpecX.nrows_of t ∧
    length (bx1 b) = SpecX.nrows_of t ∧ length (bx2 b) = SpecX.nrows_of t ∧
    length (by1 b) = SpecX.nrows_of t ∧ length (by2 b) = SpecX.nrows_of t.
Proof.
  intros H. apply prepare_mdf_table_inr in H
    as (t & mx & my & sx & sy & refpix & t1 & t2 & t3 & t4 & t5
        & Ht & -> & Hmx & Hmy & Hsx & Hsy & Hrp & H1 & H2 & H3 & H4 & H5 & Ha & Hh').
  assert (Hne : t ≠ []).
  { unfold getitem in Hmx. destruct t; [discriminate | done]. }
  apply setitem_inr_nrows in H1 as (L1 & N1 & E1); [|done].
  apply setitem_inr_nrows in H2 as (L2 & N2 & E2); [|done].
  apply setitem_inr_nrows in H3 as (L3 & N3 & E3); [|done].
  apply setitem_inr_nrows in H4 as (L4 & N4 & E4); [|done].
  apply setitem_inr_nrows in H5 as (L5 & N5 & E5); [|done].
  simpl in L1, L2, L3, L4. unfold clip_below_zero, clip_above in L1, L2, L3, L4.
  rewrite length_fmap in L1, L2, L3, L4.
  eexists t, _, t5. rewrite Hh', lookup_insert_eq.
  split; [done|]. split; [by apply boxes_of_table_getitem|].
  split; [done|]. split; [done|]. repeat split; congruence.
Qed.

(** X15.  cut_slits accepts every table that prepare_mdf_table returns: given
    the data array and the optional planes, the call returns, with one HDU
    per row for the data and for each plane supplied. *)
Theorem cut_slits_accepts_prepared_table (h h1 : store) (l l1 data : loc)
    (p : params) (d : NdArray.ndarray) (uncertainty mask : option loc)
    (return_cut_image : bool) :
  prepare_mdf_table h l p = inr (h1, l1) →
  arrays h !! data = Some d →
  Spec.plane_ok h uncertainty → Spec.plane_ok h mask →
  ∃ t h2 cut_image bundle,
    tables h !! l = Some t ∧
    Cutter.cut_slits h1 data l1 uncertainty mask return_cut_image
      = inr (h2, (cut_image, bundle)) ∧
    length bundle
    = (SpecX.nrows_of t * (1 + Spec.supplied uncertainty + Spec.supplied mask))%nat.
Proof.
  intros Hprep Hd Hu Hm.
  destruct (prepare_mdf_table_lengths _ _ _ _ _ Hprep)
    as (t & b & t' & Ht & Hb & Ht' & Hne & Hn' & L1 & L2 & L3 & L4).
  destruct (prepare_mdf_table_result _ _ _ _ _ Hprep)
    as (t0 & b0 & t0' & Ht0 & Hb0 & Ht0' & Ha & C1 & C2 & C3 & C4 & _).
  rewrite Ht in Ht0. injection Ht0 as <-. rewrite Hb in Hb0. injection Hb0 as <-.
  rewrite Ht' in Ht0'. injection Ht0' as <-.
  assert (Hplane : ∀ o, Spec.plane_ok h o → Spec.plane_ok h1 o).
  { intros [o|]; simpl; [by rewrite Ha | done]. }
  assert (Hlen : ∀ (f g : Z → Z) (a c : list Z), length a = SpecX.nrows_of t →
            length c = SpecX.nrows_of t → length (f <$> a) = length (g <$> c)).
  { intros f g a c ? ?. rewrite !length_fmap. congruence. }
  destruct (cut_slits_spec h1 data l1 uncertainty mask return_cut_image t' d
              (clip_below_zero (bx1 b)) (clip_above (naxis1 p) (bx2 b))
              (clip_below_zero (by1 b)) (clip_above (naxis2 p) (by2 b)))
    as (h2 & ci & Hcut & _); try (by apply Hplane); try done.
  { unfold clip_below_zero, clip_above.
    repeat split; try done; by apply Hlen. }
  { by rewrite Ha. }
  eexists t, h2, ci, _. split; [done|]. split; [exact Hcut|].
  assert (Hs : ∀ o, Spec.plane_ok h1 o → Spec.supplied (Spec.plane h1 o) = Spec.supplied o).
  { intros [o|]; [|done]. simpl. by intros [a ->]. }
  rewrite bundle_from_length, boxes_of_length, !Hs by
    (try (by apply Hplane); unfold clip_below_zero, clip_above; by apply Hlen).
  unfold clip_below_zero. by rewrite length_fmap, L1.
Qed.

Lemma setitem_same (t : Table) (name : string) (c : column) :
  get_column name t = Some c → col_length c = SpecX.nrows_of t →
  setitem t name c = inr t.
Proof.
  intros Hc Hlen. rewrite setitem_ok; [|by eapply get_column_nonempty|done].
  by rewrite replace_column_same.
Qed.

(** X16.  Preparing a returned table again returns a table with the same
    columns: the derived columns are recomputed from the raw ones, which the
    first call has not changed. *)
Theorem prepare_again_gives_the_same_table (h h1 : store) (l l1 : loc) (p : params) :
  prepare_mdf_table h l p = inr (h1, l1) →
  ∃ h2 l2, prepare_mdf_table h1 l1 p = inr (h2, l2) ∧ l2 ≠ l1 ∧
           tables h2 !! l2 = tables h1 !! l1 ∧
           tables h2 !! l1 = tables h1 !! l1.
Proof.
  intros H. apply prepare_mdf_table_inr in H
    as (t & mx & my & sx & sy & refpix & t1 & t2 & t3 & t4 & t5
        & Ht & -> & Hmx & Hmy & Hsx & Hsy & Hrp & H1 & H2 & H3 & H4 & H5 & Ha & Hh').
  assert (Hne : t ≠ []).
  { unfold getitem in Hmx. destruct t; [discriminate | done]. }
  pose proof H1 as G1. pose proof H2 as G2. pose proof H3 as G3.
  pose proof H4 as G4. pose proof H5 as G5.
  apply setitem_inr_nrows in G1 as (L1 & N1 & E1); [|done].
  apply setitem_inr_nrows in G2 as (L2 & N2 & E2); [|done].
  apply setitem_inr_nrows in G3 as (L3 & N3 & E3); [|done].
  apply setitem_inr_nrows in G4 as (L4 & N4 & E4); [|done].
  apply setitem_inr_nrows in G5 as (L5 & N5 & E5); [|done].
  assert (Hget : ∀ n, get_column n t5 =
            if bool_decide (n = "REFPIX1") then Some (RealCol refpix)
            else if bool_decide (n = "SECY2")
                 then Some (IntCol (clip_above (naxis2 p) (by2 (unclipped_boxes p
                        (col_values mx) (col_values my) (col_values sx) (col_values sy)))))
            else if bool_decide (n = "SECY1")
                 then Some (IntCol (clip_below_zero (by1 (unclipped_boxes p
                        (col_values mx) (col_values my) (col_values sx) (col_values sy)))))
            else if bool_decide (n = "SECX2")
                 then Some (IntCol (clip_above (naxis1 p) (bx2 (unclipped_boxes p
                        (col_values mx) (col_values my) (col_values sx) (col_values sy)))))
            else if bool_decide (n = "SECX1")
                 then Some (IntCol (clip_below_zero (bx1 (unclipped_boxes p
                        (col_values mx) (col_values my) (col_values sx) (col_values sy)))))
            else get_column n t).
  { intros n. by rewrite (get_setitem _ _ _ _ _ H5), (get_setitem _ _ _ _ _ H4),
      (get_setitem _ _ _ _ _ H3), (get_setitem _ _ _ _ _ H2), (get_setitem _ _ _ _ _ H1). }
  assert (Hraw : ∀ n c, n ∈ SpecX.raw_columns → getitem t n = inr c → getitem t5 n = inr c).
  { intros n c Hn. unfold getitem. rewrite Hget.
    unfold SpecX.raw_columns in Hn. rewrite !elem_of_cons in Hn.
    destruct Hn as [->|[->|[->|[->|Hn]]]]; [done..|by apply elem_of_nil in Hn]. }
  assert (N : SpecX.nrows_of t5 = SpecX.nrows_of t) by congruence.
  destruct (prepare_mdf_table_ok h1 (fresh (dom (tables h))) p t5 mx my sx sy refpix
              t5 t5 t5 t5 t5) as (h2 & Hok & _ & Ht2).
  - by rewrite Hh', lookup_insert_eq.
  - apply Hraw; [|done]. unfold SpecX.raw_columns. rewrite !elem_of_cons. tauto.
  - apply Hraw; [|done]. unfold SpecX.raw_columns. rewrite !elem_of_cons. tauto.
  - apply Hraw; [|done]. unfold SpecX.raw_columns. rewrite !elem_of_cons. tauto.
  - apply Hraw; [|done]. unfold SpecX.raw_columns. rewrite !elem_of_cons. tauto.
  - exact Hrp.
  - apply setitem_same; [by rewrite Hget | congruence].
  - apply setitem_same; [by rewrite Hget | congruence].
  - apply setitem_same; [by rewrite Hget | congruence].
  - apply setitem_same; [by rewrite Hget | congruence].
  - apply setitem_same; [by rewrite Hget | congruence].
  - exists h2, (fresh (dom (tables h1))).
    assert (Hfresh : fresh (dom (tables h1)) ≠ fresh (dom (tables h))).
    { intros E. apply (is_fresh (dom (tables h1))). rewrite E, Hh'.
      apply elem_of_dom. by rewrite lookup_insert_eq. }
    split; [done|]. split; [done|]. rewrite Ht2. split.
    + by rewrite lookup_insert_eq, Hh', lookup_insert_eq.
    + by rewrite lookup_insert_ne.
Qed.

Lemma colnames_replace_column (t : Table) (name : string) (c : column) :
  colnames (replace_column name c t)
  = colnames t ++ (if decide (name ∈ colnames t) then [] else [name]).
Proof.
  unfold colnames. induction t as [|[n0 c0] t IH].
  - cbn [replace_column fmap list_fmap fst app].
    destruct (decide (name ∈ [])) as [Hin|_]; [by apply elem_of_nil in Hin | done].
  - cbn [replace_column]. case_bool_decide as E.
    + subst. cbn [fmap list_fmap fst].
      destruct (decide (name ∈ name :: t.*1)) as [_|Hin]; [by rewrite app_nil_r|].
      exfalso. apply Hin, list_elem_of_here.
    + rewrite !fmap_cons, IH. cbn [fst app]. do 2 f_equal.
      destruct (decide (name ∈ t.*1)) as [Hin|Hin];
        destruct (decide (name ∈ n0 :: t.*1)) as [Hin'|Hin']; try done.
      * exfalso. by apply Hin', list_elem_of_further.
      * apply elem_of_cons in Hin' as [->|?]; done.
Qed.

Lemma colnames_setitem (t t' : Table) (name : string) (c : column) :
  setitem t name c = inr t' →
  colnames t' = colnames t ++ (if decide (name ∈ colnames t) then [] else [name]).
Proof.
  unfold setitem. destruct t as [|[n0 c0] t0].
  - intros [= <-]. apply (colnames_replace_column [] name c).
  - case_bool_decide; [|discriminate]. intros [= <-].
    apply (colnames_replace_column ((n0, c0) :: t0)).
Qed.

Lemma colnames_setitem_acc (l ns : list string) (name : string) (t t' : Table)
    (c : column) :
  colnames t = l ++ filter (λ n, n ∉ l) ns → name ∉ ns →
  setitem t name c = inr t' →
  colnames t' = l ++ filter (λ n, n ∉ l) (ns ++ [name]).
Proof.
  intros Hc Hn Hs. rewrite (colnames_setitem _ _ _ _ Hs), Hc, filter_app, <- app_assoc.
  do 2 f_equal. rewrite filter_cons, filter_nil.
  destruct (decide (name ∉ l)) as [Hl|Hl].
  - rewrite decide_False; [done|]. rewrite elem_of_app, list_elem_of_filter. tauto.
  - rewrite decide_True; [done|]. rewrite elem_of_app. left.
    by destruct (decide (name ∈ l)).
Qed.

(** X17.  The returned table keeps the columns of the argument in their
    order and has, after them, those of SECX1, SECX2, SECY1, SECY2 and
    REFPIX1 that the argument lacked, in this order; each of these five
    columns has as many entries as the argument has rows. *)
Theorem prepare_appends_the_missing_derived_columns (h h' : store) (l l' : loc)
    (p : params) :
  prepare_mdf_table h l p = inr (h', l') →
  ∃ t t', tables h !! l = Some t ∧ tables h' !! l' = Some t' ∧
          colnames t'
          = colnames t ++ filter (λ n, n ∉ colnames t) Spec.derived_columns ∧
          SpecX.nrows_of t' = SpecX.nrows_of t ∧
          ∀ n c, n ∈ Spec.derived_columns → get_column n t' = Some c →
                 col_length c = SpecX.nrows_of t.
Proof.
  intros H. apply prepare_mdf_table_inr in H
    as (t & mx & my & sx & sy & refpix & t1 & t2 & t3 & t4 & t5
        & Ht & -> & Hmx & Hmy & Hsx & Hsy & Hrp & H1 & H2 & H3 & H4 & H5 & Ha & Hh').
  assert (Hne : t ≠ []).
  { unfold getitem in Hmx. destruct t; [discriminate | done]. }
  exists t, t5. rewrite Hh', lookup_insert_eq. split; [done|]. split; [done|].
  split; [|split].
  - assert (C0 : colnames t = colnames t ++ filter (λ n, n ∉ colnames t) [])
      by (by rewrite filter_nil, app_nil_r).
    pose proof (colnames_setitem_acc _ _ _ _ _ _ C0 (not_elem_of_nil _) H1) as C1.
    assert (N2 : "SECX2" ∉ [] ++ ["SECX1"]) by (apply (bool_decide_unpack _); vm_compute; exact I).
    pose proof (colnames_setitem_acc _ _ _ _ _ _ C1 N2 H2) as C2.
    assert (N3 : "SECY1" ∉ ([] ++ ["SECX1"]) ++ ["SECX2"])
      by (apply (bool_decide_unpack _); vm_compute; exact I).
    pose proof (colnames_setitem_acc _ _ _ _ _ _ C2 N3 H3) as C3.
    assert (N4 : "SECY2" ∉ (([] ++ ["SECX1"]) ++ ["SECX2"]) ++ ["SECY1"])
      by (apply (bool_decide_unpack _); vm_compute; exact I).
    pose proof (colnames_setitem_acc _ _ _ _ _ _ C3 N4 H4) as C4.
    assert (N5 : "REFPIX1" ∉ ((([] ++ ["SECX1"]) ++ ["SECX2"]) ++ ["SECY1"]) ++ ["SECY2"])
      by (apply (bool_decide_unpack _); vm_compute; exact I).
    exact (colnames_setitem_acc _ _ _ _ _ _ C4 N5 H5).
  - apply setitem_inr_nrows in H1 as (L1 & N1 & E1); [|done].
    apply setitem_inr_nrows in H2 as (L2 & N2 & E2); [|done].
    apply setitem_inr_nrows in H3 as (L3 & N3 & E3); [|done].
    apply setitem_inr_nrows in H4 as (L4 & N4 & E4); [|done].
    apply setitem_inr_nrows in H5 as (L5 & N5 & E5); [|done]. congruence.
  - intros n c Hn.
    rewrite (get_setitem _ _ _ _ _ H5), (get_setitem _ _ _ _ _ H4),
      (get_setitem _ _ _ _ _ H3), (get_setitem _ _ _ _ _ H2), (get_setitem _ _ _ _ _ H1).
    apply setitem_inr_nrows in H1 as (L1 & N1 & E1); [|done].
    apply setitem_inr_nrows in H2 as (L2 & N2 & E2); [|done].
    apply setitem_inr_nrows in H3 as (L3 & N3 & E3); [|done].
    apply setitem_inr_nrows in H4 as (L4 & N4 & E4); [|done].
    apply setitem_inr_nrows in H5 as (L5 & N5 & E5); [|done].
    unfold Spec.derived_columns in Hn. rewrite !elem_of_cons in Hn.
    destruct Hn as [->|[->|[->|[->|[->|Hn]]]]]; [..|by apply elem_of_nil in Hn];
      simpl; intros [= <-]; congruence.
Qed.

End prepare_compose_extras.

(** * The further properties on the examples *)

Section edge_extras_examples.
Import EdgeFinder Examples.

(** Witness of X1 on [two_step_image]. *)
Lemma profiles_have_one_sample_per_row_pair_witness :
  find_mask_edges (H := RefLib.lib) two_step_image Py.slice_None 3 2 1
    = inr two_step_edges ∧
  length (ma_data (peaks two_step_edges)) = (length two_step_image - 1)%nat ∧
  length (ma_mask (peaks two_step_edges)) = (length two_step_image - 1)%nat ∧
  length (ma_data (troughs two_step_edges)) = (length two_step_image - 1)%nat ∧
  length (ma_mask (troughs two_step_edges)) = (length two_step_image - 1)%nat.
Proof.
  assert (E : find_mask_edges (H := RefLib.lib) two_step_image Py.slice_None 3 2 1
              = inr two_step_edges) by (vm_compute; reflexivity).
  split; [exact E|].
  exact (profiles_have_one_sample_per_row_pair _ _ _ _ _ _ E).
Defined.


(** Witness of X4 on [two_step_image]. *)
Lemma edge_lies_within_its_run_witness :
  find_mask_edges (H := RefLib.lib) two_step_image Py.slice_None 3 2 1
    = inr two_step_edges ∧
  let g := gradient_profile_of (H := RefLib.lib) two_step_image Py.slice_None 3 in
  (∀ c, c ∈ lower_edges two_step_edges →
     ∃ s len, (2 ≤ len)%nat ∧
              Spec.is_maximal_run (Spec.candidate (peaks two_step_edges)) (length g) s len ∧
              (Np.of_index s <= c)%Q ∧ (c <= Np.of_index (s + len - 1))%Q) ∧
  (∀ c, c ∈ upper_edges two_step_edges →
     ∃ s len, (2 ≤ len)%nat ∧
              Spec.is_maximal_run (Spec.candidate (troughs two_step_edges)) (length g) s len ∧
              (Np.of_index s <= c)%Q ∧ (c <= Np.of_index (s + len - 1))%Q).
Proof.
  assert (E : find_mask_edges (H := RefLib.lib) two_step_image Py.slice_None 3 2 1
              = inr two_step_edges) by (vm_compute; reflexivity).
  split; [exact E|].
  exact (edge_lies_within_its_run _ _ _ _ _ _ E).
Defined.


End edge_extras_examples.

Section cut_extras_examples.
Import NdArray Tbl Cutter CutExamples.

(** Witness of X7 on [sample_store], with the annotated image asked for. *)
Lemma cut_slits_leaves_the_inputs_witness :
  ∃ h' cut_image bundle,
    cut_slits sample_store image_loc table_loc (Some noise_loc) None true
      = inr (h', (cut_image, bundle)) ∧
    tables h' = tables sample_store ∧
    (∀ l a, arrays sample_store !! l = Some a → arrays h' !! l = Some a) ∧
    (true = false → cut_image = None ∧ arrays h' = arrays sample_store) ∧
    (true = true → ∃ l, cut_image = Some l ∧ arrays sample_store !! l = None).
Proof.
  destruct (cut_slits sample_store image_loc table_loc (Some noise_loc) None true)
    as [e|[h' [cut_image bundle]]] eqn:E; [vm_compute in E; discriminate|].
  exists h', cut_image, bundle. split; [reflexivity|].
  exact (cut_slits_leaves_the_inputs _ _ _ _ _ _ _ _ _ E).
Defined.

(** Witness of X8 on [sample_store], with an uncertainty plane of the shape
    of the frame. *)
Lemma plane_cutouts_have_the_shape_of_the_data_cutout_witness :
  ∃ h' cut_image bundle,
    cut_slits sample_store image_loc table_loc (Some noise_loc) None false
      = inr (h', (cut_image, bundle)) ∧
    ∀ i hd hp, hd ∈ bundle → hp ∈ bundle →
      hdu_name hd = Py.label "DATA" i →
      (hdu_name hp = Py.label "UNCERTAINTY" i ∨ hdu_name hp = Py.label "MASK" i) →
      shape (hdu_data hp) = shape (hdu_data hd).
Proof.
  apply (plane_cutouts_have_the_shape_of_the_data_cutout sample_store image_loc table_loc
           (Some noise_loc) None sample_table sample_image [1; 0] [3; 2] [0; 1] [2; 3]
           eq_refl sample_prepared eq_refl (ex_intro _ sample_noise eq_refl) I false).
  intros l a [Hl|Hl] Ha; [|discriminate].
  injection Hl as <-. vm_compute in Ha. injection Ha as <-. reflexivity.
Defined.

(** Witness of X9 on the second row of [sample_store]. *)
Lemma data_cutout_is_the_box_within_the_frame_witness :
  ∃ h' cut_image bundle,
    cut_slits sample_store image_loc table_loc (Some noise_loc) None false
      = inr (h', (cut_image, bundle)) ∧
    ∀ hdu, hdu ∈ bundle → hdu_name hdu = Py.label "DATA" 1 →
      nrows (hdu_data hdu)
      = (Z.to_nat 3 `min` nrows sample_image - Z.to_nat 1 `min` nrows sample_image)%nat ∧
      ncols (hdu_data hdu)
      = (Z.to_nat 2 `min` ncols sample_image - Z.to_nat 0 `min` ncols sample_image)%nat ∧
      ∀ r c, (r < nrows (hdu_data hdu))%nat → (c < ncols (hdu_data hdu))%nat →
        is_Some (get sample_image (Z.to_nat 1 + r) (Z.to_nat 0 + c)) ∧
        get (hdu_data hdu) r c = get sample_image (Z.to_nat 1 + r) (Z.to_nat 0 + c).
Proof.
  apply (data_cutout_is_the_box_within_the_frame sample_store image_loc table_loc
           (Some noise_loc) None sample_table sample_image [1; 0] [3; 2] [0; 1] [2; 3]
           eq_refl sample_prepared eq_refl (ex_intro _ sample_noise eq_refl) I
           false 1%nat 0 2 1 3).
  - repeat constructor.
  - reflexivity.
  - lia.
  - lia.
  - lia.
  - lia.
Defined.

End cut_extras_examples.

Section prepare_extras_examples.
Import Tbl Mdf MdfExamples PipelineExamples.

(** Witness of X10: [short_table] has slitpos_mx and lacks slitpos_my. *)
Lemma prepare_raises_on_missing_raw_column_witness :
  prepare_mdf_table short_store mask_loc sample_params = inl (KeyError "slitpos_my").
Proof.
  apply (prepare_raises_on_missing_raw_column short_store mask_loc sample_params
           short_table ["slitpos_mx"] ["slitsize_mx"; "slitsize_my"] "slitpos_my").
  - reflexivity.
  - reflexivity.
  - intros n Hn. apply list_elem_of_singleton in Hn as ->. by eexists.
  - reflexivity.
Defined.





(** Witness of X15 on [framed_store]. *)
Lemma cut_slits_accepts_prepared_table_witness :
  ∃ h1 l1,
    prepare_mdf_table framed_store mask_loc sample_params = inr (h1, l1) ∧
    ∃ t h2 cut_image bundle,
      tables framed_store !! mask_loc = Some t ∧
      Cutter.cut_slits h1 CutExamples.image_loc l1 None None true
        = inr (h2, (cut_image, bundle)) ∧
      length bundle
      = (SpecX.nrows_of t * (1 + Spec.supplied (@None loc) + Spec.supplied (@None loc)))%nat.
Proof.
  destruct (prepare_mdf_table framed_store mask_loc sample_params)
    as [e|[h1 l1]] eqn:E; [vm_compute in E; discriminate|].
  exists h1, l1. split; [reflexivity|].
  exact (cut_slits_accepts_prepared_table framed_store h1 mask_loc l1
           CutExamples.image_loc sample_params CutExamples.sample_image None None true
           E eq_refl I I).
Defined.

(** Witness of X16 on a table of one slit at the centre of the mask. *)
Lemma prepare_again_gives_the_same_table_witness :
  ∃ h1 l1,
    prepare_mdf_table (raw_store [(0, 0)%Q]) mask_loc sample_params = inr (h1, l1) ∧
    ∃ h2 l2, prepare_mdf_table h1 l1 sample_params = inr (h2, l2) ∧ l2 ≠ l1 ∧
             tables h2 !! l2 = tables h1 !! l1 ∧
             tables h2 !! l1 = tables h1 !! l1.
Proof.
  destruct (prepare_mdf_table (raw_store [(0, 0)%Q]) mask_loc sample_params)
    as [e|[h1 l1]] eqn:E; [vm_compute in E; discriminate|].
  exists h1, l1. split; [reflexivity|].
  exact (prepare_again_gives_the_same_table _ _ _ _ _ E).
Defined.

(** Witness of X17 on a table of one slit at the centre of the mask. *)
Lemma prepare_appends_the_missing_derived_columns_witness :
  ∃ h' l',
    prepare_mdf_table (raw_store [(0, 0)%Q]) mask_loc sample_params = inr (h', l') ∧
    ∃ t t', tables (raw_store [(0, 0)%Q]) !! mask_loc = Some t ∧
            tables h' !! l' = Some t' ∧
            colnames t'
            = colnames t ++ filter (λ n, n ∉ colnames t) Spec.derived_columns ∧
            SpecX.nrows_of t' = SpecX.nrows_of t ∧
            ∀ n c, n ∈ Spec.derived_columns → get_column n t' = Some c →
                   col_length c = SpecX.nrows_of t.
Proof.
  destruct (prepare_mdf_table (raw_store [(0, 0)%Q]) mask_loc sample_params)
    as [e|[h' l']] eqn:E; [vm_compute in E; discriminate|].
  exists h', l'. split; [reflexivity|].
  exact (prepare_appends_the_missing_derived_columns _ _ _ _ _ E).
Defined.

End prepare_extras_examples.
